(** * PetIBM: the Taira-Colonius coupling operator [BNQ] and its delta kernel

    A shallow embedding of [src/solvers/TairaColonius/generateBNQ.inl].

    - [PetscReal] is modelled by the real numbers [R] (exact arithmetic,
      no rounding, no overflow); [PetscInt] by [Z] (the indices of a mesh
      stay far from the range where a machine integer would overflow).
      The kernel is embedded a second time on binary64 numbers (module
      [Binary64]) to show where the doubles part from the reals.
    - PETSc objects are modelled by what the builder hands to the library:
      a matrix under construction is the sequence of [MatSetValues] and
      [MatSetValue] calls made on it, an assembled matrix is a finite map
      from (row, column) to value.  Every PETSc call is taken to succeed
      ([CHKERRV] never returns early). *)

From Stdlib Require Import Reals Lra Lia ZArith QArith_base Qreals.
From Stdlib Require PrimFloat.
From stdpp Require Import base option list gmap.

#[local] Open Scope R_scope.

(** ** Comparisons on [PetscReal] *)

#[global] Instance Rlt_decision (a b : R) : Decision (a < b) := Rlt_dec a b.
#[global] Instance Rle_decision (a b : R) : Decision (a <= b) := Rle_dec a b.
#[global] Instance Req_decision : EqDecision R := Req_dec_T.

(** [a > b], [a < b] and [a <= b] as the C++ conditions evaluate them. *)
Definition Rgtb (a b : R) : bool := bool_decide (b < a).
Definition Rltb (a b : R) : bool := bool_decide (a < b).
Definition Rleb (a b : R) : bool := bool_decide (a <= b).

(** ** The discrete delta function of Roma et al. *)

(** [PetscReal dhRoma(PetscReal x, PetscReal h)], lines 1-10. *)
Definition dhRoma (x h : R) : R :=
  let r := Rabs x / h in
  if Rgtb r 1.5 then
    0.0
  else if Rgtb r 0.5 && Rleb r 1.5 then
    1.0 / (6 * h) * (5.0 - 3.0 * r - sqrt (-3.0 * (1 - r) * (1 - r) + 1.0))
  else
    1.0 / (3 * h) * (1.0 + sqrt (-3.0 * r * r + 1.0)).

(** The expressions of the middle branch (line 7) and of the inner branch
    (line 9), as functions of the ratio [r]. *)
Definition dhRoma_middle (r h : R) : R :=
  1.0 / (6 * h) * (5.0 - 3.0 * r - sqrt (-3.0 * (1 - r) * (1 - r) + 1.0)).

Definition dhRoma_inner (r h : R) : R :=
  1.0 / (3 * h) * (1.0 + sqrt (-3.0 * r * r + 1.0)).

(** [PetscReal delta(PetscReal x, PetscReal y, PetscReal h)], lines 12-15. *)
Definition delta (x y h : R) : R := dhRoma x h * dhRoma y h.

(** *** The same function with the partial operations made explicit

    Still exact real arithmetic: [None] stands for an operation that has
    no real result, a division by zero or the square root of a negative
    number, and propagates.  What doubles add to this (overflow to an
    infinity, infinity times zero, rounding) is not part of it; see
    [Binary64.dhRoma] below. *)




(** *** The kernel on binary64 numbers

    [PetscReal] as the IEEE 754 double it is in a default build: every
    operation rounds to nearest, overflows to an infinity, and a
    comparison with a NaN is false. *)

Module Binary64.
Import PrimFloat.

(** [PetscReal dhRoma(PetscReal x, PetscReal h)], lines 1-10. *)
Definition dhRoma (x h : float) : float :=
  (let r := abs x / h in
   if 1.5 <? r then
     0.0
   else if andb (0.5 <? r) (r <=? 1.5) then
     1.0 / (6 * h) * (5.0 - 3.0 * r - sqrt (-3.0 * (1 - r) * (1 - r) + 1.0))
   else
     1.0 / (3 * h) * (1.0 + sqrt (-3.0 * r * r + 1.0)))%float.

(** [PetscReal delta(PetscReal x, PetscReal y, PetscReal h)], lines 12-15. *)
Definition delta (x y h : float) : float := (dhRoma x h * dhRoma y h)%float.

End Binary64.

(** ** PETSc and C++ data *)

(** The implicit conversion of a [PetscReal] to a [PetscInt] truncates
    toward zero.  In C++ the conversion is defined only when the truncated
    value fits the integer type; the model gives the truncated value for
    every real, so it speaks for the code only within that range. *)
Definition PetscInt_of_Real (v : R) : Z :=
  if Rleb 0 v then Zfloor v else Zceil v.

(** [v[i]] on a [std::vector] or a C array.  Reading out of range is
    undefined in C++; the model returns [d] there. *)
Definition vec_get {A} (d : A) (v : list A) (i : Z) : A :=
  if (i <? 0)%Z then d else default d (v !! Z.to_nat i).

(** [PetscMalloc(size * sizeof(PetscInt), &buf)]: a buffer of [size]
    integers that is not initialised; [junk] is what the memory holds. *)
Definition PetscMalloc (size : Z) (junk : nat -> Z) : list Z :=
  junk <$> seq 0 (Z.to_nat size).

(** The two ways the builder sets values of a matrix, both with
    [INSERT_VALUES]: [MatSetValues(A, 1, &row, |cols|, cols, values, ..)]
    and [MatSetValue(A, row, col, value, ..)]. *)
Inductive MatCall : Type :=
  | MatSetValues (row : Z) (cols : list Z) (values : list R)
  | MatSetValue (row col : Z) (value : R).

(** The (row, column, value) triples a call hands to PETSc. *)
Definition call_entries (c : MatCall) : list (Z * Z * R) :=
  match c with
  | MatSetValues row cols values =>
      zip_with (fun col v => (row, col, v)) cols values
  | MatSetValue row col value => [(row, col, value)]
  end.

Definition call_row (c : MatCall) : Z :=
  match c with
  | MatSetValues row _ _ => row
  | MatSetValue row _ _ => row
  end.

(** A [Mat]: the preallocation requested for it, the values set since the
    last assembly, and the assembled entries. *)
Record Mat : Type := {
  mat_d_nnz : list Z;
  mat_o_nnz : list Z;
  mat_stash : list MatCall;
  mat_val : gmap (Z * Z) R
}.

(** A [Vec], by global index. *)
Definition Vec : Type := list R.

(** [MatCreate], [MatSetType], [MatSetSizes], [MatMPIAIJSetPreallocation]. *)
Definition MatCreate_prealloc (d_nnz o_nnz : list Z) : Mat :=
  {| mat_d_nnz := d_nnz; mat_o_nnz := o_nnz; mat_stash := []; mat_val := ∅ |}.

Definition MatStash (A : Mat) (c : MatCall) : Mat :=
  {| mat_d_nnz := mat_d_nnz A; mat_o_nnz := mat_o_nnz A;
     mat_stash := mat_stash A ++ [c]; mat_val := mat_val A |}.

(** With [INSERT_VALUES] a later value for a position replaces an earlier
    one. *)
Definition insert_entries (m : gmap (Z * Z) R) (es : list (Z * Z * R))
  : gmap (Z * Z) R :=
  foldl (fun m e => <[(e.1.1, e.1.2) := e.2]> m) m es.

(** [MatAssemblyBegin] followed by [MatAssemblyEnd], as far as the calls
    of this process go: the matrix lives on [PETSC_COMM_WORLD], and what
    the other processes set (in their own rows) is not in the model. *)
Definition MatAssembly (A : Mat) : Mat :=
  {| mat_d_nnz := mat_d_nnz A; mat_o_nnz := mat_o_nnz A;
     mat_stash := [];
     mat_val := insert_entries (mat_val A) (mat_stash A ≫= call_entries) |}.

(** [MatTranspose(A, MAT_INITIAL_MATRIX, &B)]: a new matrix. *)
Definition MatTranspose (A : Mat) : Mat :=
  {| mat_d_nnz := []; mat_o_nnz := []; mat_stash := [];
     mat_val := kmap prod_swap (mat_val A) |}.

(** [MatDiagonalScale(A, l, NULL)]: row [i] is multiplied by [l[i]]. *)
Definition MatDiagonalScale (A : Mat) (l : Vec) : Mat :=
  {| mat_d_nnz := mat_d_nnz A; mat_o_nnz := mat_o_nnz A;
     mat_stash := mat_stash A;
     mat_val := map_imap (fun k v => Some (vec_get 0 l k.1 * v)) (mat_val A) |}.

(** The value of an assembled matrix at a position (0 where nothing is
    stored). *)
Definition MatGetValue (A : Mat) (row col : Z) : R :=
  default 0 (mat_val A !! (row, col)).

(** What [DMDAGetCorners] returns for a 2D grid. *)
Record DMDACorners : Type := {
  mstart : Z; nstart : Z; m : Z; n : Z
}.

Record CartesianMesh : Type := {
  mesh_x : list R;
  mesh_y : list R
}.

(** The members of the solver that [generateBNQ] reads or writes, and the
    answers of the PETSc and MPI queries it makes. *)
Record TairaColoniusSolver : Type := {
  numProcs : Z;                         (* MPI_Comm_size *)
  qStart : Z; qEnd : Z;                 (* VecGetOwnershipRange(q) *)
  lambdaStart : Z; lambdaEnd : Z;       (* VecGetOwnershipRange(lambda) *)
  pGlobalIdx : Z -> Z -> R;             (* DMDAVecGetArray(pda, pMapping), [j][i] *)
  uda : DMDACorners;
  vda : DMDACorners;
  mesh : CartesianMesh;
  h : R;
  x : list R;
  y : list R;
  boundaryPointIndices : list (list Z);
  bodyGlobalIndices : list Z;
  numBoundaryPointsOnProcess : list Z;
  BN : Vec;
  BNQ : Mat;
  QT : Mat
}.

(** Modelled from the spec: [countNumNonZeros] is called by the builder but
    its definition is not among the source files.  Pass 1 of section 4.2
    counts exactly 2 nonzeros from the pressure-gradient block and splits
    each count into local (column owned by the same process) and remote;
    so the helper stores, in its two output arguments, how many of the
    first [numCols] columns lie inside and outside [rowStart, rowEnd). *)
Definition countNumNonZeros (cols : list Z) (numCols : nat)
    (rowStart rowEnd : Z) : Z * Z :=
  foldl (fun '(d, o) col =>
           if ((rowStart <=? col) && (col <? rowEnd))%Z
           then ((d + 1)%Z, o) else (d, (o + 1)%Z))
        (0%Z, 0%Z) (take numCols cols).

(** ** The 2D builder, [TairaColoniusSolver<2>::generateBNQ] *)

Module Dim2.
Section Builder.
Variable s : TairaColoniusSolver.

(** *** Pass 1 (lines 46-102) *)

(** Body of the inner loop over U faces, lines 56-73. *)
Definition count_U (j i : Z) (yCoord : R) (st : Z * list Z * list Z)
  : Z * list Z * list Z :=
  let '(localIdx, d_nnz, o_nnz) := st in
  let xCoord := vec_get 0 (mesh_x (mesh s)) (i + 1) in
  (* G portion *)
  let cols := [PetscInt_of_Real (pGlobalIdx s j i);
               PetscInt_of_Real (pGlobalIdx s j (i + 1))] in
  let '(d, o) := countNumNonZeros cols 2 (lambdaStart s) (lambdaEnd s) in
  let d_nnz := <[Z.to_nat localIdx := d]> d_nnz in
  let o_nnz := <[Z.to_nat localIdx := o]> o_nnz in
  (* ET portion *)
  let '(d_nnz, o_nnz) :=
    foldl (fun acc procIdx =>
      foldl (fun '(d_nnz, o_nnz) l =>
        if Rltb (Rabs (xCoord - vec_get 0 (x s) l)) (1.5 * h s)
           && Rltb (Rabs (yCoord - vec_get 0 (y s) l)) (1.5 * h s)
        then
          let col := vec_get 0%Z (bodyGlobalIndices s) l in
          if ((lambdaStart s <=? col) && (col <? lambdaEnd s))%Z
          then (alter Z.succ (Z.to_nat localIdx) d_nnz, o_nnz)
          else (d_nnz, alter Z.succ (Z.to_nat localIdx) o_nnz)
        else (d_nnz, o_nnz))
        acc (vec_get [] (boundaryPointIndices s) procIdx))
      (d_nnz, o_nnz) (seqZ 0 (numProcs s)) in
  ((localIdx + 1)%Z, d_nnz, o_nnz).

(** Body of the inner loop over V faces, lines 83-100. *)
Definition count_V (j i : Z) (yCoord : R) (st : Z * list Z * list Z)
  : Z * list Z * list Z :=
  let '(localIdx, d_nnz, o_nnz) := st in
  let xCoord := 0.5 * (vec_get 0 (mesh_x (mesh s)) i
                       + vec_get 0 (mesh_x (mesh s)) (i + 1)) in
  (* G portion *)
  let cols := [PetscInt_of_Real (pGlobalIdx s j i);
               PetscInt_of_Real (pGlobalIdx s (j + 1) i)] in
  let '(d, o) := countNumNonZeros cols 2 (lambdaStart s) (lambdaEnd s) in
  let d_nnz := <[Z.to_nat localIdx := d]> d_nnz in
  let o_nnz := <[Z.to_nat localIdx := o]> o_nnz in
  (* ET portion *)
  let '(d_nnz, o_nnz) :=
    foldl (fun acc procIdx =>
      foldl (fun '(d_nnz, o_nnz) l =>
        if Rltb (Rabs (xCoord - vec_get 0 (x s) l)) (1.5 * h s)
           && Rltb (Rabs (yCoord - vec_get 0 (y s) l)) (1.5 * h s)
        then
          let col := (vec_get 0 (bodyGlobalIndices s) l
                      + vec_get 0 (numBoundaryPointsOnProcess s) procIdx)%Z in
          if ((lambdaStart s <=? col) && (col <? lambdaEnd s))%Z
          then (alter Z.succ (Z.to_nat localIdx) d_nnz, o_nnz)
          else (d_nnz, alter Z.succ (Z.to_nat localIdx) o_nnz)
        else (d_nnz, o_nnz))
        acc (vec_get [] (boundaryPointIndices s) procIdx))
      (d_nnz, o_nnz) (seqZ 0 (numProcs s)) in
  ((localIdx + 1)%Z, d_nnz, o_nnz).

(** The counting loops.  [d_nnz] and [o_nnz] are the two buffers of
    [qLocalSize] integers obtained from [PetscMalloc]; their initial
    contents are whatever the allocator left there.  Writing past the end
    of a buffer is undefined in C++; in the model such a write is lost. *)
Definition count_nonzeros (d_nnz o_nnz : list Z) : list Z * list Z :=
  let localIdx := 0%Z in
  (* U *)
  let st :=
    foldl (fun st j =>
      let yCoord := 0.5 * (vec_get 0 (mesh_y (mesh s)) j
                           + vec_get 0 (mesh_y (mesh s)) (j + 1)) in
      foldl (fun st i => count_U j i yCoord st) st
            (seqZ (mstart (uda s)) (m (uda s))))
      (localIdx, d_nnz, o_nnz) (seqZ (nstart (uda s)) (n (uda s))) in
  (* V *)
  let st :=
    foldl (fun st j =>
      let yCoord := vec_get 0 (mesh_y (mesh s)) (j + 1) in
      foldl (fun st i => count_V j i yCoord st) st
            (seqZ (mstart (vda s)) (m (vda s))))
      st (seqZ (nstart (vda s)) (n (vda s))) in
  (st.1.2, st.2).

(** *** Pass 2 (lines 114-173) *)

(** Body of the inner loop over U faces, lines 123-142.  [value] is
    declared [PetscInt] (line 27): the product is converted to an integer
    when it is stored, and back to a scalar when it is passed on. *)
Definition fill_U (j i : Z) (yCoord : R) (st : Z * Mat) : Z * Mat :=
  let '(localIdx, BNQ) := st in
  let values := [-1.0; 1.0] in
  let xCoord := vec_get 0 (mesh_x (mesh s)) (i + 1) in
  let row := (localIdx + qStart s)%Z in
  (* G portion *)
  let cols := [PetscInt_of_Real (pGlobalIdx s j i);
               PetscInt_of_Real (pGlobalIdx s j (i + 1))] in
  let BNQ := MatStash BNQ (MatSetValues row cols values) in
  (* ET portion *)
  let BNQ :=
    foldl (fun BNQ procIdx =>
      foldl (fun BNQ l =>
        if Rltb (Rabs (xCoord - vec_get 0 (x s) l)) (1.5 * h s)
           && Rltb (Rabs (yCoord - vec_get 0 (y s) l)) (1.5 * h s)
        then
          let col := vec_get 0%Z (bodyGlobalIndices s) l in
          let value := PetscInt_of_Real
            (h s * delta (xCoord - vec_get 0 (x s) l)
                         (yCoord - vec_get 0 (y s) l) (h s)) in
          MatStash BNQ (MatSetValue row col (IZR value))
        else BNQ)
        BNQ (vec_get [] (boundaryPointIndices s) procIdx))
      BNQ (seqZ 0 (numProcs s)) in
  ((localIdx + 1)%Z, BNQ).

(** Body of the inner loop over V faces, lines 152-171. *)
Definition fill_V (j i : Z) (yCoord : R) (st : Z * Mat) : Z * Mat :=
  let '(localIdx, BNQ) := st in
  let values := [-1.0; 1.0] in
  let xCoord := 0.5 * (vec_get 0 (mesh_x (mesh s)) i
                       + vec_get 0 (mesh_x (mesh s)) (i + 1)) in
  let row := (localIdx + qStart s)%Z in
  (* G portion *)
  let cols := [PetscInt_of_Real (pGlobalIdx s j i);
               PetscInt_of_Real (pGlobalIdx s (j + 1) i)] in
  let BNQ := MatStash BNQ (MatSetValues row cols values) in
  (* ET portion *)
  let BNQ :=
    foldl (fun BNQ procIdx =>
      foldl (fun BNQ l =>
        if Rltb (Rabs (xCoord - vec_get 0 (x s) l)) (1.5 * h s)
           && Rltb (Rabs (yCoord - vec_get 0 (y s) l)) (1.5 * h s)
        then
          let col := (vec_get 0 (bodyGlobalIndices s) l
                      + vec_get 0 (numBoundaryPointsOnProcess s) procIdx)%Z in
          let value := PetscInt_of_Real
            (h s * delta (xCoord - vec_get 0 (x s) l)
                         (yCoord - vec_get 0 (y s) l) (h s)) in
          MatStash BNQ (MatSetValue row col (IZR value))
        else BNQ)
        BNQ (vec_get [] (boundaryPointIndices s) procIdx))
      BNQ (seqZ 0 (numProcs s)) in
  ((localIdx + 1)%Z, BNQ).

(** The filling loops. *)
Definition fill_values (BNQ : Mat) : Mat :=
  let localIdx := 0%Z in
  (* U *)
  let st :=
    foldl (fun st j =>
      let yCoord := 0.5 * (vec_get 0 (mesh_y (mesh s)) j
                           + vec_get 0 (mesh_y (mesh s)) (j + 1)) in
      foldl (fun st i => fill_U j i yCoord st) st
            (seqZ (mstart (uda s)) (m (uda s))))
      (localIdx, BNQ) (seqZ (nstart (uda s)) (n (uda s))) in
  (* V *)
  let st :=
    foldl (fun st j =>
      let yCoord := vec_get 0 (mesh_y (mesh s)) (j + 1) in
      foldl (fun st i => fill_V j i yCoord st) st
            (seqZ (mstart (vda s)) (m (vda s))))
      st (seqZ (nstart (vda s)) (n (vda s))) in
  st.2.

(** *** The whole function (lines 17-181)

    [junk_d] and [junk_o] are what the two freshly allocated buffers
    happen to contain. *)
Definition generateBNQ (junk_d junk_o : nat -> Z) : TairaColoniusSolver :=
  let qLocalSize := (qEnd s - qStart s)%Z in
  let d_nnz := PetscMalloc qLocalSize junk_d in
  let o_nnz := PetscMalloc qLocalSize junk_o in
  let '(d_nnz, o_nnz) := count_nonzeros d_nnz o_nnz in
  let BNQ := MatCreate_prealloc d_nnz o_nnz in
  let BNQ := fill_values BNQ in
  let BNQ := MatAssembly BNQ in
  let QT := MatTranspose BNQ in
  let BNQ := MatDiagonalScale BNQ (BN s) in
  {| numProcs := numProcs s;
     qStart := qStart s; qEnd := qEnd s;
     lambdaStart := lambdaStart s; lambdaEnd := lambdaEnd s;
     pGlobalIdx := pGlobalIdx s;
     uda := uda s; vda := vda s; mesh := mesh s; h := h s;
     x := x s; y := y s;
     boundaryPointIndices := boundaryPointIndices s;
     bodyGlobalIndices := bodyGlobalIndices s;
     numBoundaryPointsOnProcess := numBoundaryPointsOnProcess s;
     BN := BN s;
     BNQ := BNQ;
     QT := QT |}.

End Builder.
End Dim2.

(** ** The 3D builder, [TairaColoniusSolver<3>::generateBNQ]
    (lines 183-325): the whole body is one block comment, no statement is
    left. *)

Module Dim3.
Definition generateBNQ (s : TairaColoniusSolver) : TairaColoniusSolver := s.
End Dim3.

Import Dim2.

(** ** Vocabulary for the statements *)

(** A velocity face of the staggered grid, with the loop indices [j] and
    [i] at which the builder visits it. *)
Inductive face : Type :=
  | UFace (j i : Z)
  | VFace (j i : Z).

(** The pairs [(j, i)] that the two nested loops over the corners of a grid
    run through, in order. *)
Definition grid (c : DMDACorners) : list (Z * Z) :=
  j ← seqZ (nstart c) (n c); i ← seqZ (mstart c) (m c); [(j, i)].

(** [A] with the calls [cs] stashed after those it already holds. *)
Definition MatStashAll (A : Mat) (cs : list MatCall) : Mat :=
  {| mat_d_nnz := mat_d_nnz A; mat_o_nnz := mat_o_nnz A;
     mat_stash := mat_stash A ++ cs; mat_val := mat_val A |}.

(** The entries with a given row among those handed to PETSc. *)
Definition row_entries (row : Z) (cs : list MatCall) : list (Z * Z * R) :=
  filter (fun e => e.1.1 = row) (cs ≫= call_entries).

(** The calls that concern a given row. *)
Definition row_calls (row : Z) (cs : list MatCall) : list MatCall :=
  filter (fun c => call_row c = row) cs.

Definition is_MatSetValues (c : MatCall) : bool :=
  match c with MatSetValues _ _ _ => true | MatSetValue _ _ _ => false end.

(** The calls of the "G portion" and of the "ET portion" of the loop body
    differ in the PETSc function they go through. *)
Definition G_calls (cs : list MatCall) : list MatCall :=
  filter (fun c => is_MatSetValues c = true) cs.
Definition ET_calls (cs : list MatCall) : list MatCall :=
  filter (fun c => is_MatSetValues c = false) cs.

Definition in_range (lo hi col : Z) : bool :=
  ((lo <=? col) && (col <? hi))%Z.

Section Vocabulary.
Variable s : TairaColoniusSolver.

(** The local rows in the order in which both passes visit them: row
    [qStart + k] belongs to the [k]-th face of this list. *)
Definition local_faces : list face :=
  (uncurry UFace <$> grid (uda s)) ++ (uncurry VFace <$> grid (vda s)).

(** Where the velocity of a face lives (lines 53 and 56, 80 and 83). *)
Definition face_x (f : face) : R :=
  match f with
  | UFace _ i => vec_get 0 (mesh_x (mesh s)) (i + 1)
  | VFace _ i => 0.5 * (vec_get 0 (mesh_x (mesh s)) i
                        + vec_get 0 (mesh_x (mesh s)) (i + 1))
  end.

Definition face_y (f : face) : R :=
  match f with
  | UFace j _ => 0.5 * (vec_get 0 (mesh_y (mesh s)) j
                        + vec_get 0 (mesh_y (mesh s)) (j + 1))
  | VFace j _ => vec_get 0 (mesh_y (mesh s)) (j + 1)
  end.

(** Global indices of the two pressure cells on either side of a face. *)
Definition face_cells (f : face) : list Z :=
  match f with
  | UFace j i => [PetscInt_of_Real (pGlobalIdx s j i);
                  PetscInt_of_Real (pGlobalIdx s j (i + 1))]
  | VFace j i => [PetscInt_of_Real (pGlobalIdx s j i);
                  PetscInt_of_Real (pGlobalIdx s (j + 1) i)]
  end.

(** The body points in the order of the scan: all [(procIdx, l)] with [l]
    in [boundaryPointIndices[procIdx]]. *)
Definition body_points : list (Z * Z) :=
  procIdx ← seqZ 0 (numProcs s);
  l ← vec_get [] (boundaryPointIndices s) procIdx;
  [(procIdx, l)].

(** Displacement from body point [l] to a face. *)
Definition disp_x (f : face) (l : Z) : R := face_x f - vec_get 0 (x s) l.
Definition disp_y (f : face) (l : Z) : R := face_y f - vec_get 0 (y s) l.

(** The proximity test: strictly less than 1.5 grid spacings on each axis. *)
Definition within_support (f : face) (l : Z) : bool :=
  Rltb (Rabs (disp_x f l)) (1.5 * h s) && Rltb (Rabs (disp_y f l)) (1.5 * h s).

Definition near_points (f : face) : list (Z * Z) :=
  filter (fun pl => within_support f pl.2 = true) body_points.

(** The body-force column of point [l] of process [procIdx] in the row of
    a face. *)
Definition body_col (f : face) (procIdx l : Z) : Z :=
  match f with
  | UFace _ _ => vec_get 0%Z (bodyGlobalIndices s) l
  | VFace _ _ => (vec_get 0 (bodyGlobalIndices s) l
                  + vec_get 0 (numBoundaryPointsOnProcess s) procIdx)%Z
  end.

(** The value stored for a body point in the row of a face. *)
Definition body_value (f : face) (l : Z) : R :=
  IZR (PetscInt_of_Real (h s * delta (disp_x f l) (disp_y f l) (h s))).

(** All that Pass 2 does for one face, given its row. *)
Definition face_calls (f : face) (row : Z) : list MatCall :=
  MatSetValues row (face_cells f) [-1.0; 1.0]
  :: ((fun pl => MatSetValue row (body_col f pl.1 pl.2) (body_value f pl.2))
        <$> near_points f).

(** The two counts of Pass 1 for one face. *)
Definition face_d_nnz (f : face) : Z :=
  ((countNumNonZeros (face_cells f) 2 (lambdaStart s) (lambdaEnd s)).1
   + Z.of_nat (length (filter
       (fun pl => in_range (lambdaStart s) (lambdaEnd s)
                           (body_col f pl.1 pl.2) = true)
       (near_points f))))%Z.

Definition face_o_nnz (f : face) : Z :=
  ((countNumNonZeros (face_cells f) 2 (lambdaStart s) (lambdaEnd s)).2
   + Z.of_nat (length (filter
       (fun pl => in_range (lambdaStart s) (lambdaEnd s)
                           (body_col f pl.1 pl.2) = false)
       (near_points f))))%Z.

(** One iteration of either pass, by the face it is for. *)
Definition count_face (f : face) (st : Z * list Z * list Z)
  : Z * list Z * list Z :=
  match f with
  | UFace j i => count_U s j i (face_y f) st
  | VFace j i => count_V s j i (face_y f) st
  end.

Definition fill_face (f : face) (st : Z * Mat) : Z * Mat :=
  match f with
  | UFace j i => fill_U s j i (face_y f) st
  | VFace j i => fill_V s j i (face_y f) st
  end.

(** The calls for a run of faces whose first row is [row]. *)
Fixpoint calls_from (row : Z) (fs : list face) : list MatCall :=
  match fs with
  | [] => []
  | f :: fs => face_calls f row ++ calls_from (row + 1) fs
  end.

End Vocabulary.

(** How many of some entries have their column inside, and outside, the
    range of columns owned by the process. *)
Definition local_count (lo hi : Z) (es : list (Z * Z * R)) : Z :=
  Z.of_nat (length (filter (fun e => in_range lo hi e.1.2 = true) es)).
Definition remote_count (lo hi : Z) (es : list (Z * Z * R)) : Z :=
  Z.of_nat (length (filter (fun e => in_range lo hi e.1.2 = false) es)).

(** The operator as [generateBNQ] has it right after the assembly (line
    177), before the transposition and the scaling. *)
Definition assembled_operator (s : TairaColoniusSolver)
    (junk_d junk_o : nat -> Z) : Mat :=
  let qLocalSize := (qEnd s - qStart s)%Z in
  let '(d_nnz, o_nnz) :=
    count_nonzeros s (PetscMalloc qLocalSize junk_d)
                     (PetscMalloc qLocalSize junk_o) in
  MatAssembly (fill_values s (MatCreate_prealloc d_nnz o_nnz)).

(** ** A small configuration

    Two pressure cells side by side, of width and height [h = 1], on one
    process: one U face between them at (1, 0.5), no V face; one body
    point, sitting exactly on that face, whose force column is 2. *)
Definition two_cells : TairaColoniusSolver :=
  {| numProcs := 1;
     qStart := 0; qEnd := 1;
     lambdaStart := 0; lambdaEnd := 4;
     pGlobalIdx := fun _ i => IZR i;
     uda := {| mstart := 0; nstart := 0; m := 1; n := 1 |};
     vda := {| mstart := 0; nstart := 0; m := 2; n := 0 |};
     mesh := {| mesh_x := [0; 1; 2]; mesh_y := [0; 1] |};
     h := 1;
     x := [1];
     y := [0.5];
     boundaryPointIndices := [[0%Z]];
     bodyGlobalIndices := [2%Z];
     numBoundaryPointsOnProcess := [1%Z];
     BN := [2];
     BNQ := MatCreate_prealloc [] [];
     QT := MatCreate_prealloc [] [] |}.

(** The same two cells without any body point. *)
Definition two_cells_bare : TairaColoniusSolver :=
  {| numProcs := 1;
     qStart := 0; qEnd := 1;
     lambdaStart := 0; lambdaEnd := 2;
     pGlobalIdx := fun _ i => IZR i;
     uda := {| mstart := 0; nstart := 0; m := 1; n := 1 |};
     vda := {| mstart := 0; nstart := 0; m := 2; n := 0 |};
     mesh := {| mesh_x := [0; 1; 2]; mesh_y := [0; 1] |};
     h := 1;
     x := [];
     y := [];
     boundaryPointIndices := [[]];
     bodyGlobalIndices := [];
     numBoundaryPointsOnProcess := [0%Z];
     BN := [2];
     BNQ := MatCreate_prealloc [] [];
     QT := MatCreate_prealloc [] [] |}.

(** ** Slopes of the two branches of the kernel

    The derivatives, with respect to the displacement [x], of the inner
    branch [x |-> dhRoma_inner (|x| / h) h] and, for [x > 0], of the middle
    branch [x |-> dhRoma_middle (x / h) h]. *)
Definition dhRoma_inner_slope (x h : R) : R :=
  - x / (h ^ 3 * sqrt (1 - 3 * (x / h) ^ 2)).

Definition dhRoma_middle_slope (x h : R) : R :=
  - (1 + (1 - x / h) / sqrt (1 - 3 * (1 - x / h) ^ 2)) / (2 * h ^ 2).

(** * Properties of the kernel *)

(** ** Basic facts on the comparisons *)

Lemma Rgtb_true a b : b < a -> Rgtb a b = true.
Proof. intros H. unfold Rgtb. by apply bool_decide_eq_true_2. Qed.

Lemma Rgtb_false a b : a <= b -> Rgtb a b = false.
Proof. intros H. unfold Rgtb. apply bool_decide_eq_false_2. lra. Qed.

Lemma Rltb_true a b : a < b -> Rltb a b = true.
Proof. intros H. unfold Rltb. by apply bool_decide_eq_true_2. Qed.

Lemma Rltb_false a b : b <= a -> Rltb a b = false.
Proof. intros H. unfold Rltb. apply bool_decide_eq_false_2. lra. Qed.

Lemma Rleb_true a b : a <= b -> Rleb a b = true.
Proof. intros H. unfold Rleb. by apply bool_decide_eq_true_2. Qed.

Lemma Rleb_false a b : b < a -> Rleb a b = false.
Proof. intros H. unfold Rleb. apply bool_decide_eq_false_2. lra. Qed.

(** ** The three branches of [dhRoma] *)

Section Kernel.
Variables (x h : R).

Lemma dhRoma_outer_branch : 1.5 < Rabs x / h -> dhRoma x h = 0.
Proof.
  intros Hr. unfold dhRoma. cbn zeta. rewrite Rgtb_true by done. lra.
Qed.

Lemma dhRoma_middle_branch :
  0.5 < Rabs x / h <= 1.5 -> dhRoma x h = dhRoma_middle (Rabs x / h) h.
Proof.
  intros [Hlo Hhi]. unfold dhRoma. cbn zeta.
  rewrite (Rgtb_false _ 1.5), (Rgtb_true _ 0.5), Rleb_true by done.
  reflexivity.
Qed.

Lemma dhRoma_inner_branch :
  Rabs x / h <= 0.5 -> dhRoma x h = dhRoma_inner (Rabs x / h) h.
Proof.
  intros Hr. unfold dhRoma. cbn zeta.
  rewrite (Rgtb_false _ 1.5), (Rgtb_false _ 0.5) by lra.
  reflexivity.
Qed.

Lemma ratio_nonneg : 0 < h -> 0 <= Rabs x / h.
Proof.
  intros h_pos. apply Rmult_le_pos; [apply Rabs_pos|].
  left. by apply Rinv_0_lt_compat.
Qed.
End Kernel.

(** ** Values at the junction radii and sign *)

(** Decimal literals are rationals injected into [R]; [field] wants them
    as quotients of integers. *)
Ltac undecimal := unfold Q2R; cbn [Qnum Qden].

Lemma sqrt_quarter : sqrt (1 / 4) = 1 / 2.
Proof. apply sqrt_lem_1; lra. Qed.

Lemma dhRoma_inner_half h : 0 < h -> dhRoma_inner 0.5 h = 1 / (2 * h).
Proof.
  intros Hh. unfold dhRoma_inner.
  replace (-3.0 * 0.5 * 0.5 + 1.0) with (1 / 4) by lra.
  rewrite sqrt_quarter. undecimal. field. lra.
Qed.

Lemma dhRoma_middle_half h : 0 < h -> dhRoma_middle 0.5 h = 1 / (2 * h).
Proof.
  intros Hh. unfold dhRoma_middle.
  replace (-3.0 * (1 - 0.5) * (1 - 0.5) + 1.0) with (1 / 4) by lra.
  rewrite sqrt_quarter. undecimal. field. lra.
Qed.

Lemma dhRoma_middle_three_halves h : 0 < h -> dhRoma_middle 1.5 h = 0.
Proof.
  intros Hh. unfold dhRoma_middle.
  replace (-3.0 * (1 - 1.5) * (1 - 1.5) + 1.0) with (1 / 4) by lra.
  rewrite sqrt_quarter. undecimal. field. lra.
Qed.

(** The square-root arguments on the two branches that take a root. *)
Lemma inner_radicand r : 0 <= r <= 0.5 -> 1 / 4 <= -3.0 * r * r + 1.0.
Proof.
  intros [H0 H1].
  assert (0 <= (0.5 - r) * (0.5 + r)) by (apply Rmult_le_pos; lra).
  undecimal. lra.
Qed.


Lemma middle_square_bound r :
  -3.0 * (1 - r) * (1 - r) + 1.0 <= (5.0 - 3.0 * r) * (5.0 - 3.0 * r).
Proof.
  pose proof (Rle_0_sqr (2 * r - 3)) as Hsq. unfold Rsqr in Hsq.
  undecimal. lra.
Qed.

Lemma dhRoma_middle_nonneg r h :
  0 < h -> r <= 1.5 -> 0 <= dhRoma_middle r h.
Proof.
  intros Hh Hr. unfold dhRoma_middle.
  apply Rmult_le_pos.
  - apply Rlt_le, Rdiv_lt_0_compat; lra.
  - assert (sqrt (-3.0 * (1 - r) * (1 - r) + 1.0) <= 5.0 - 3.0 * r); [|lra].
    rewrite <- (sqrt_square (5.0 - 3.0 * r)) by lra.
    apply sqrt_le_1_alt, middle_square_bound.
Qed.

Lemma dhRoma_inner_nonneg r h : 0 < h -> 0 <= dhRoma_inner r h.
Proof.
  intros Hh. unfold dhRoma_inner.
  apply Rmult_le_pos.
  - apply Rlt_le, Rdiv_lt_0_compat; lra.
  - pose proof (sqrt_pos (-3.0 * r * r + 1.0)). lra.
Qed.

(** Case analysis on the branch taken. *)
Lemma dhRoma_branches x h :
  let r := Rabs x / h in
  (1.5 < r /\ dhRoma x h = 0) \/
  (0.5 < r <= 1.5 /\ dhRoma x h = dhRoma_middle r h) \/
  (r <= 0.5 /\ dhRoma x h = dhRoma_inner r h).
Proof.
  intros r.
  destruct (Rlt_dec 1.5 r) as [H1|H1].
  { left. split; [done|]. by apply dhRoma_outer_branch. }
  destruct (Rlt_dec 0.5 r) as [H2|H2].
  { right; left. split; [lra|]. apply dhRoma_middle_branch. fold r. lra. }
  right; right. split; [lra|]. apply dhRoma_inner_branch. fold r. lra.
Qed.

(** ** The contract of the kernel *)

(** C4. For every displacement [x] and spacing [h > 0], with
    [r = |x| / h]: [dhRoma x h] is [0] when [r > 1.5]; it is
    [(1/(6h)) * (5 - 3r - sqrt (-3 (1-r)^2 + 1))] when [0.5 < r <= 1.5];
    it is [(1/(3h)) * (1 + sqrt (-3 r^2 + 1))] when [r <= 0.5]; and the 2D
    kernel [delta x y h] is the product [dhRoma x h * dhRoma y h]. *)
Theorem dhRoma_delta_contract (x y h : R) :
  0 < h ->
  let r := Rabs x / h in
  (r > 1.5 -> dhRoma x h = 0) /\
  (0.5 < r <= 1.5 ->
     dhRoma x h = (1 / (6 * h)) * (5 - 3 * r - sqrt (-3 * (1 - r) ^ 2 + 1))) /\
  (r <= 0.5 ->
     dhRoma x h = (1 / (3 * h)) * (1 + sqrt (-3 * r ^ 2 + 1))) /\
  delta x y h = dhRoma x h * dhRoma y h.
Proof.
  intros Hh r. repeat split.
  - intros Hr. by apply dhRoma_outer_branch.
  - intros Hr. rewrite dhRoma_middle_branch by done. fold r.
    unfold dhRoma_middle.
    replace (-3.0 * (1 - r) * (1 - r) + 1.0) with (-3 * (1 - r) ^ 2 + 1)
      by (undecimal; field).
    undecimal. field. lra.
  - intros Hr. rewrite dhRoma_inner_branch by done. fold r.
    unfold dhRoma_inner.
    replace (-3.0 * r * r + 1.0) with (-3 * r ^ 2 + 1) by (undecimal; field).
    undecimal. field. lra.
Qed.

Lemma dhRoma_delta_contract_witness :
  0 < 1 /\ delta 0 0 1 = dhRoma 0 1 * dhRoma 0 1.
Proof.
  split; [lra|]. apply (dhRoma_delta_contract 0 0 1). lra.
Defined.

(** C8. For every displacement [x] and every spacing [h > 0] the weight
    [dhRoma x h] is non-negative.  On the middle branch this rests on
    [(5 - 3r)^2 >= 1 - 3 (1-r)^2], which is an equality at [r = 1.5]. *)
Theorem dhRoma_nonneg (x h : R) :
  0 < h ->
  0 <= dhRoma x h /\
  (forall r, 0.5 < r <= 1.5 -> (5 - 3 * r) ^ 2 >= 1 - 3 * (1 - r) ^ 2) /\
  (5 - 3 * 1.5) ^ 2 = 1 - 3 * (1 - 1.5) ^ 2.
Proof.
  intros Hh. split; [|split].
  - destruct (dhRoma_branches x h) as [[_ ->]|[[[_ Hr] ->]|[_ ->]]].
    + lra.
    + by apply dhRoma_middle_nonneg.
    + by apply dhRoma_inner_nonneg.
  - intros r _. pose proof (middle_square_bound r) as Hb.
    apply Rle_ge.
    replace ((5 - 3 * r) ^ 2) with ((5.0 - 3.0 * r) * (5.0 - 3.0 * r))
      by (undecimal; field).
    replace (1 - 3 * (1 - r) ^ 2) with (-3.0 * (1 - r) * (1 - r) + 1.0)
      by (undecimal; field).
    done.
  - undecimal. field.
Qed.

Lemma dhRoma_nonneg_witness : 0 < 2 /\ 0 <= dhRoma 3 2.
Proof.
  split; [lra|]. apply (dhRoma_nonneg 3 2). lra.
Defined.





(** ** Continuity of the kernel *)

(** A function that, near [a], always takes the value of one of two
    functions continuous at [a] and equal there, is continuous at [a]. *)
Lemma continuity_pt_glue (f g phi : R -> R) (a d : R) :
  0 < d ->
  continuity_pt f a -> continuity_pt g a ->
  phi a = f a -> phi a = g a ->
  (forall x, Rabs (x - a) < d -> phi x = f x \/ phi x = g x) ->
  continuity_pt phi a.
Proof.
  intros Hd Hf Hg Hfa Hga Hloc eps Heps.
  destruct (Hf eps Heps) as (d1 & Hd1 & H1).
  destruct (Hg eps Heps) as (d2 & Hd2 & H2).
  exists (Rmin d (Rmin d1 d2)). split.
  { repeat apply Rmin_glb_lt; lra. }
  intros x [Hx Hdist]. simpl in *. unfold Rdist in *.
  pose proof (Rmin_l d (Rmin d1 d2)).
  pose proof (Rmin_r d (Rmin d1 d2)).
  pose proof (Rmin_l d1 d2). pose proof (Rmin_r d1 d2).
  destruct (Hloc x) as [-> | ->]; [lra | |].
  - rewrite Hfa. apply H1. split; [done|lra].
  - rewrite Hga. apply H2. split; [done|lra].
Qed.

Section Continuity.
Variable h : R.
Hypothesis h_pos : 0 < h.

Lemma ratio_continuity x0 : continuity_pt (fun x => Rabs x / h) x0.
Proof.
  change (continuity_pt (mult_fct Rabs (fct_cte (/ h))) x0).
  apply continuity_pt_mult; [apply Rcontinuity_abs|].
  apply continuity_pt_const. by intros ? ?.
Qed.

Lemma middle_continuity x0 :
  0.5 <= Rabs x0 / h <= 1.5 ->
  continuity_pt (fun x => dhRoma_middle (Rabs x / h) h) x0.
Proof.
  intros Hr.
  change (continuity_pt
            (comp (fun r => dhRoma_middle r h) (fun x => Rabs x / h)) x0).
  apply continuity_pt_comp; [apply ratio_continuity|].
  set (r0 := Rabs x0 / h) in *.
  change (continuity_pt
    (mult_fct (fct_cte (1.0 / (6 * h)))
       (minus_fct (fun r => 5.0 - 3.0 * r)
          (comp sqrt (fun r => -3.0 * (1 - r) * (1 - r) + 1.0)))) r0).
  apply continuity_pt_mult; [apply continuity_pt_const; by intros ? ?|].
  apply continuity_pt_minus; [reg|].
  apply continuity_pt_comp; [reg|]. apply continuity_pt_sqrt.
  assert (0 <= (r0 - 0.5) * (1.5 - r0)) by (apply Rmult_le_pos; lra).
  undecimal. lra.
Qed.

Lemma inner_continuity x0 :
  Rabs x0 / h <= 0.5 ->
  continuity_pt (fun x => dhRoma_inner (Rabs x / h) h) x0.
Proof.
  intros Hr. pose proof (ratio_nonneg x0 h h_pos) as Hr0.
  change (continuity_pt
            (comp (fun r => dhRoma_inner r h) (fun x => Rabs x / h)) x0).
  apply continuity_pt_comp; [apply ratio_continuity|].
  set (r0 := Rabs x0 / h) in *.
  change (continuity_pt
    (mult_fct (fct_cte (1.0 / (3 * h)))
       (plus_fct (fct_cte 1.0)
          (comp sqrt (fun r => -3.0 * r * r + 1.0)))) r0).
  apply continuity_pt_mult; [apply continuity_pt_const; by intros ? ?|].
  apply continuity_pt_plus; [apply continuity_pt_const; by intros ? ?|].
  apply continuity_pt_comp; [reg|]. apply continuity_pt_sqrt.
  pose proof (inner_radicand r0). lra.
Qed.

(** Moving [x] by less than [d * h] moves the ratio by less than [d]. *)
Lemma ratio_close x x0 d :
  Rabs (x - x0) < d * h ->
  Rabs x0 / h - d < Rabs x / h < Rabs x0 / h + d.
Proof.
  intros Hx. pose proof (Rabs_triang_inv2 x x0) as Ht.
  pose proof (Rinv_0_lt_compat h h_pos) as Hi.
  assert (Rabs (Rabs x - Rabs x0) < d * h) as Hc by lra.
  apply Rabs_def2 in Hc as [Hc1 Hc2].
  assert (d = d * h * / h) as Hdh by (field; lra).
  unfold Rdiv. split.
  - apply (Rmult_lt_compat_r (/ h)) in Hc2; [|done]. lra.
  - apply (Rmult_lt_compat_r (/ h)) in Hc1; [|done]. lra.
Qed.

Lemma dhRoma_continuity_pt x0 : continuity_pt (fun x => dhRoma x h) x0.
Proof.
  pose proof (ratio_nonneg x0 h h_pos) as Hr0.
  set (r0 := Rabs x0 / h) in *.
  set (fM := fun x => dhRoma_middle (Rabs x / h) h).
  set (fI := fun x => dhRoma_inner (Rabs x / h) h).
  set (f0 := fun _ : R => 0).
  assert (continuity_pt f0 x0) as C0 by (apply continuity_pt_const; by intros ? ?).
  destruct (Rtotal_order r0 0.5) as [Hlt | [Heq | Hgt]].
  - (* strictly inside the inner branch *)
    apply (continuity_pt_glue fI fI _ x0 ((0.5 - r0) * h)).
    + apply Rmult_lt_0_compat; lra.
    + apply inner_continuity. fold r0. lra.
    + apply inner_continuity. fold r0. lra.
    + apply dhRoma_inner_branch. fold r0. lra.
    + apply dhRoma_inner_branch. fold r0. lra.
    + intros x Hx. apply ratio_close in Hx. fold r0 in Hx.
      left. apply dhRoma_inner_branch. lra.
  - (* the junction at 0.5 *)
    apply (continuity_pt_glue fI fM _ x0 (1 * h)).
    + lra.
    + apply inner_continuity. fold r0. lra.
    + apply middle_continuity. fold r0. lra.
    + apply dhRoma_inner_branch. fold r0. lra.
    + rewrite dhRoma_inner_branch by (fold r0; lra). unfold fM. fold r0.
      rewrite Heq, dhRoma_inner_half, dhRoma_middle_half; done.
    + intros x Hx. apply ratio_close in Hx. fold r0 in Hx.
      destruct (dhRoma_branches x h) as [[? _]|[[_ ->]|[_ ->]]];
        [lra | by right | by left].
  - destruct (Rtotal_order r0 1.5) as [Hlt | [Heq | Hgt']].
    + (* strictly inside the middle branch *)
      apply (continuity_pt_glue fM fM _ x0 (Rmin (r0 - 0.5) (1.5 - r0) * h)).
      * apply Rmult_lt_0_compat; [apply Rmin_glb_lt|]; lra.
      * apply middle_continuity. fold r0. lra.
      * apply middle_continuity. fold r0. lra.
      * apply dhRoma_middle_branch. fold r0. lra.
      * apply dhRoma_middle_branch. fold r0. lra.
      * intros x Hx. apply ratio_close in Hx. fold r0 in Hx.
        pose proof (Rmin_l (r0 - 0.5) (1.5 - r0)).
        pose proof (Rmin_r (r0 - 0.5) (1.5 - r0)).
        left. apply dhRoma_middle_branch. lra.
    + (* the junction at 1.5 *)
      apply (continuity_pt_glue fM f0 _ x0 (1 * h)).
      * lra.
      * apply middle_continuity. fold r0. lra.
      * done.
      * apply dhRoma_middle_branch. fold r0. lra.
      * rewrite dhRoma_middle_branch by (fold r0; lra). fold r0.
        rewrite Heq. by apply dhRoma_middle_three_halves.
      * intros x Hx. apply ratio_close in Hx. fold r0 in Hx.
        destruct (dhRoma_branches x h) as [[_ ->]|[[_ ->]|[? _]]];
          [by right | by left | lra].
    + (* outside the support *)
      apply (continuity_pt_glue f0 f0 _ x0 ((r0 - 1.5) * h)).
      * apply Rmult_lt_0_compat; lra.
      * done.
      * done.
      * apply dhRoma_outer_branch. fold r0. lra.
      * apply dhRoma_outer_branch. fold r0. lra.
      * intros x Hx. apply ratio_close in Hx. fold r0 in Hx.
        left. apply dhRoma_outer_branch. lra.
Qed.

End Continuity.

(** C7. In exact real arithmetic and for [h > 0], [dhRoma(., h)] is
    continuous at the junction radii: at [|x|/h = 0.5] the inner and the
    middle branch both have the value [1/(2h)]; at [|x|/h = 1.5] the middle
    branch has the value [0] of the outer branch; and the function itself
    is continuous at every point (in particular where [|x|/h] is 0.5 or
    1.5). *)
Theorem dhRoma_continuous_at_junctions (h : R) :
  0 < h ->
  dhRoma_inner 0.5 h = 1 / (2 * h) /\
  dhRoma_middle 0.5 h = 1 / (2 * h) /\
  dhRoma_middle 1.5 h = 0 /\
  (forall x, Rabs x / h = 0.5 -> dhRoma x h = 1 / (2 * h)) /\
  (forall x, Rabs x / h = 1.5 -> dhRoma x h = 0) /\
  (forall x0, continuity_pt (fun x => dhRoma x h) x0).
Proof.
  intros Hh. repeat split.
  - by apply dhRoma_inner_half.
  - by apply dhRoma_middle_half.
  - by apply dhRoma_middle_three_halves.
  - intros x Hx. rewrite dhRoma_inner_branch by lra.
    rewrite Hx. by apply dhRoma_inner_half.
  - intros x Hx. rewrite dhRoma_middle_branch by lra.
    rewrite Hx. by apply dhRoma_middle_three_halves.
  - intros x0. by apply dhRoma_continuity_pt.
Qed.

Lemma dhRoma_continuous_at_junctions_witness :
  0 < 2 /\ dhRoma_middle 1.5 2 = 0 /\ continuity_pt (fun x => dhRoma x 2) 3.
Proof.
  split; [lra|].
  split; [|apply (dhRoma_continuous_at_junctions 2); lra].
  apply (dhRoma_continuous_at_junctions 2). lra.
Defined.

(** * The builder *)

(** ** Loops as folds *)

(** Two nested loops run through the pairs of their indices. *)
Lemma foldl_nested {A P L} (g : A -> P -> L -> A) (inner : P -> list L)
    (ps : list P) (a : A) :
  foldl (fun a p => foldl (fun a l => g a p l) a (inner p)) a ps
  = foldl (fun a pl => g a pl.1 pl.2) a (p ← ps; l ← inner p; [(p, l)]).
Proof.
  revert a. induction ps as [|p ps IH]; intros a; [done|].
  cbn [foldl]. rewrite bind_cons, foldl_app, <- IH. f_equal.
  generalize (inner p). clear. intros ls. revert a.
  induction ls as [|l ls IH]; intros a; [done|].
  rewrite bind_cons. cbn. apply IH.
Qed.

(** A loop that stashes one call for each element that passes a test. *)
Lemma foldl_stash {P} (g : Mat -> P -> Mat) (c : P -> bool)
    (call : P -> MatCall) :
  (forall B p, g B p = if c p then MatStash B (call p) else B) ->
  forall pts B,
    foldl g B pts
    = MatStashAll B (call <$> filter (fun p => c p = true) pts).
Proof.
  intros Hg pts. induction pts as [|p pts IH]; intros B.
  - destruct B. unfold MatStashAll. cbn. by rewrite app_nil_r.
  - cbn [foldl]. rewrite IH, Hg. destruct (c p) eqn:E.
    + rewrite filter_cons_True by done. unfold MatStashAll, MatStash. cbn.
      by rewrite <- app_assoc.
    + rewrite filter_cons_False by congruence. done.
Qed.

(** A loop that increments one of two counters, kept at index [idx] of two
    arrays, for each element that passes a test. *)
Lemma foldl_bump {P} (g : list Z * list Z -> P -> list Z * list Z)
    (c inr : P -> bool) (idx : nat) :
  (forall d o p,
     g (d, o) p = if c p
                  then if inr p then (alter Z.succ idx d, o)
                       else (d, alter Z.succ idx o)
                  else (d, o)) ->
  forall pts d o,
    let near := filter (fun p => c p = true) pts in
    foldl g (d, o) pts
    = (alter (Z.add (Z.of_nat (length (filter (fun p => inr p = true) near))))
             idx d,
       alter (Z.add (Z.of_nat (length (filter (fun p => inr p = false) near))))
             idx o).
Proof.
  intros Hg pts. induction pts as [|p pts IH]; intros d o near.
  - cbn. by rewrite !list_alter_id.
  - cbn [foldl]. rewrite Hg. subst near. destruct (c p) eqn:E.
    + rewrite (filter_cons_True _ p pts) by done. destruct (inr p) eqn:E'.
      * rewrite IH. cbn zeta.
        rewrite (filter_cons_True (fun p => inr p = true)) by done.
        rewrite (filter_cons_False (fun p => inr p = false)) by congruence.
        rewrite list_alter_alter_eq. f_equal.
        apply list_alter_ext; [|done]. intros z _. cbn. lia.
      * rewrite IH. cbn zeta.
        rewrite (filter_cons_False (fun p => inr p = true)) by congruence.
        rewrite (filter_cons_True (fun p => inr p = false)) by done.
        rewrite list_alter_alter_eq. f_equal.
        apply list_alter_ext; [|done]. intros z _. cbn. lia.
    + rewrite (filter_cons_False _ p pts) by congruence. apply IH.
Qed.

Lemma alter_insert_eq {A} (f : A -> A) (l : list A) (i : nat) (a : A) :
  alter f i (<[i := a]> l) = <[i := f a]> l.
Proof. by rewrite !list_insert_alter, list_alter_alter_eq. Qed.

(** ** One iteration of each pass *)

Section BuilderFacts.
Variable s : TairaColoniusSolver.

Lemma MatStashAll_app B cs1 cs2 :
  MatStashAll (MatStashAll B cs1) cs2 = MatStashAll B (cs1 ++ cs2).
Proof. unfold MatStashAll. cbn. by rewrite app_assoc. Qed.

Lemma MatStash_MatStashAll B c : MatStash B c = MatStashAll B [c].
Proof. done. Qed.

(** Pass 2 stashes, for the face it is at, the calls [face_calls]. *)
Lemma fill_face_calls f idx B :
  fill_face s f (idx, B)
  = ((idx + 1)%Z, MatStashAll B (face_calls s f (idx + qStart s))).
Proof.
  destruct f as [j i|j i]; cbn [fill_face]; unfold fill_U, fill_V;
    cbn zeta; f_equal; rewrite foldl_nested.
  - rewrite (foldl_stash _
      (fun pl => within_support s (UFace j i) pl.2)
      (fun pl => MatSetValue (idx + qStart s)
                   (body_col s (UFace j i) pl.1 pl.2)
                   (body_value s (UFace j i) pl.2))); [|done].
    by rewrite MatStash_MatStashAll, MatStashAll_app.
  - rewrite (foldl_stash _
      (fun pl => within_support s (VFace j i) pl.2)
      (fun pl => MatSetValue (idx + qStart s)
                   (body_col s (VFace j i) pl.1 pl.2)
                   (body_value s (VFace j i) pl.2))); [|done].
    by rewrite MatStash_MatStashAll, MatStashAll_app.
Qed.

(** Pass 1 stores, for the face it is at, the counts [face_d_nnz] and
    [face_o_nnz] at index [localIdx] of the two arrays. *)
Lemma count_face_nnz f idx d o :
  count_face s f (idx, d, o)
  = ((idx + 1)%Z,
     <[Z.to_nat idx := face_d_nnz s f]> d,
     <[Z.to_nat idx := face_o_nnz s f]> o).
Proof.
  destruct f as [j i|j i]; cbn [count_face]; unfold count_U, count_V;
    unfold face_d_nnz, face_o_nnz; cbn [face_cells];
    destruct (countNumNonZeros _ 2 (lambdaStart s) (lambdaEnd s))
      as [dG oG]; cbn zeta; rewrite foldl_nested.
  - rewrite (foldl_bump _
      (fun pl => within_support s (UFace j i) pl.2)
      (fun pl => in_range (lambdaStart s) (lambdaEnd s)
                   (body_col s (UFace j i) pl.1 pl.2))
      (Z.to_nat idx)); [|done].
    cbn zeta. rewrite !alter_insert_eq. cbn [fst snd].
    by rewrite (Z.add_comm dG), (Z.add_comm oG).
  - rewrite (foldl_bump _
      (fun pl => within_support s (VFace j i) pl.2)
      (fun pl => in_range (lambdaStart s) (lambdaEnd s)
                   (body_col s (VFace j i) pl.1 pl.2))
      (Z.to_nat idx)); [|done].
    cbn zeta. rewrite !alter_insert_eq. cbn [fst snd].
    by rewrite (Z.add_comm dG), (Z.add_comm oG).
Qed.

(** ** The loops over the faces *)

Lemma foldl_pointwise {A B} (f g : A -> B -> A) (l : list B) (a : A) :
  (forall a b, f a b = g a b) -> foldl f a l = foldl g a l.
Proof.
  intros Hfg. revert a. induction l as [|b l IH]; intros a; [done|].
  cbn. by rewrite Hfg, IH.
Qed.

Lemma MatStashAll_nil B : MatStashAll B [] = B.
Proof. destruct B. unfold MatStashAll. cbn. by rewrite app_nil_r. Qed.

Lemma fill_loop fs idx B :
  foldl (fun st f => fill_face s f st) (idx, B) fs
  = ((idx + Z.of_nat (length fs))%Z,
     MatStashAll B (calls_from s (idx + qStart s) fs)).
Proof.
  revert idx B. induction fs as [|f fs IH]; intros idx B.
  - cbn. by rewrite MatStashAll_nil, Z.add_0_r.
  - cbn [foldl]. rewrite fill_face_calls, IH, MatStashAll_app.
    cbn [calls_from length].
    replace (idx + 1 + qStart s)%Z with (idx + qStart s + 1)%Z by lia.
    f_equal. lia.
Qed.

Lemma count_loop fs idx d o :
  (0 <= idx)%Z ->
  foldl (fun st f => count_face s f st) (idx, d, o) fs
  = ((idx + Z.of_nat (length fs))%Z,
     list_inserts (Z.to_nat idx) (face_d_nnz s <$> fs) d,
     list_inserts (Z.to_nat idx) (face_o_nnz s <$> fs) o).
Proof.
  revert idx d o. induction fs as [|f fs IH]; intros idx d o Hidx.
  - cbn. by rewrite Z.add_0_r.
  - cbn [foldl]. rewrite count_face_nnz, IH by lia.
    replace (Z.to_nat (idx + 1)) with (S (Z.to_nat idx)) by lia.
    cbn [fmap list_fmap list_inserts length].
    rewrite <- !list_insert_inserts_lt by lia.
    do 2 f_equal. lia.
Qed.

(** Both passes run through [local_faces]. *)
Lemma fill_values_faces B :
  fill_values s B
  = (foldl (fun st f => fill_face s f st) (0%Z, B) (local_faces s)).2.
Proof.
  unfold fill_values, local_faces. cbn zeta.
  rewrite foldl_app, !foldl_fmap, !foldl_nested.
  unfold grid.
  rewrite (foldl_pointwise
             (fun a pl => fill_V s pl.1 pl.2 _ a)
             (fun a c => fill_face s (uncurry VFace c) a))
    by (by intros st [j i]).
  rewrite (foldl_pointwise
             (fun a pl => fill_U s pl.1 pl.2 _ a)
             (fun a c => fill_face s (uncurry UFace c) a))
    by (by intros st [j i]).
  done.
Qed.

Lemma count_nonzeros_faces d o :
  count_nonzeros s d o
  = let st := foldl (fun st f => count_face s f st) (0%Z, d, o)
                    (local_faces s) in
    (st.1.2, st.2).
Proof.
  unfold count_nonzeros, local_faces. cbn zeta.
  rewrite foldl_app, !foldl_fmap, !foldl_nested.
  unfold grid.
  rewrite (foldl_pointwise
             (fun a pl => count_V s pl.1 pl.2 _ a)
             (fun a c => count_face s (uncurry VFace c) a))
    by (by intros st [j i]).
  rewrite (foldl_pointwise
             (fun a pl => count_U s pl.1 pl.2 _ a)
             (fun a c => count_face s (uncurry UFace c) a))
    by (by intros st [j i]).
  done.
Qed.

(** Closed forms of the two passes. *)
Lemma fill_values_calls B :
  fill_values s B = MatStashAll B (calls_from s (qStart s) (local_faces s)).
Proof. by rewrite fill_values_faces, fill_loop. Qed.

Lemma count_nonzeros_inserts d o :
  count_nonzeros s d o
  = (list_inserts 0 (face_d_nnz s <$> local_faces s) d,
     list_inserts 0 (face_o_nnz s <$> local_faces s) o).
Proof. by rewrite count_nonzeros_faces, count_loop. Qed.

(** ** Rows *)

Lemma filter_all {A} (P : A -> Prop) `{!forall a, Decision (P a)} (l : list A) :
  Forall P l -> filter P l = l.
Proof.
  induction 1 as [|a l Ha _ IH]; [done|].
  by rewrite filter_cons_True, IH.
Qed.

Lemma filter_none {A} (P : A -> Prop) `{!forall a, Decision (P a)} (l : list A) :
  Forall (fun a => ~ P a) l -> filter P l = [].
Proof.
  induction 1 as [|a l Ha _ IH]; [done|].
  by rewrite filter_cons_False, IH.
Qed.

Lemma face_calls_row f row :
  Forall (fun c => call_row c = row) (face_calls s f row).
Proof.
  unfold face_calls. constructor; [done|].
  apply Forall_fmap, Forall_true. by intros [p l].
Qed.

Lemma calls_from_rows fs row0 :
  Forall (fun c => (row0 <= call_row c < row0 + Z.of_nat (length fs))%Z)
         (calls_from s row0 fs).
Proof.
  revert row0. induction fs as [|f fs IH]; intros row0; [constructor|].
  cbn [calls_from length]. apply Forall_app. split.
  - eapply Forall_impl; [apply face_calls_row|]. cbn. intros c ->. lia.
  - eapply Forall_impl; [apply IH|]. cbn. intros c Hc. lia.
Qed.

(** The calls with row [row0 + k] are those made at the [k]-th face. *)
Lemma row_calls_calls_from fs row0 (k : nat) f :
  fs !! k = Some f ->
  row_calls (row0 + Z.of_nat k) (calls_from s row0 fs)
  = face_calls s f (row0 + Z.of_nat k).
Proof.
  unfold row_calls.
  revert row0 k. induction fs as [|f0 fs IH]; intros row0 k Hk; [done|].
  cbn [calls_from]. rewrite filter_app. destruct k as [|k].
  - injection Hk as ->. rewrite Z.add_0_r.
    rewrite filter_all by apply face_calls_row.
    rewrite filter_none; [by rewrite app_nil_r|].
    eapply Forall_impl; [apply calls_from_rows|]. cbn. intros c Hc. lia.
  - cbn in Hk. rewrite filter_none.
    + replace (row0 + Z.of_nat (S k))%Z with (row0 + 1 + Z.of_nat k)%Z by lia.
      by apply IH.
    + eapply Forall_impl; [apply face_calls_row|]. cbn. intros c ->. lia.
Qed.

Lemma call_entries_row c :
  Forall (fun e => e.1.1 = call_row c) (call_entries c).
Proof.
  destruct c as [row cols values|row col value]; cbn.
  - revert values. induction cols as [|c cols IH]; intros [|v values];
      cbn; constructor; [done|apply IH].
  - by constructor.
Qed.

Lemma row_entries_row_calls row cs :
  row_entries row cs = row_calls row cs ≫= call_entries.
Proof.
  unfold row_entries, row_calls. induction cs as [|c cs IH]; [done|].
  rewrite bind_cons, filter_app, IH.
  destruct (decide (call_row c = row)) as [Hc|Hc].
  - rewrite (filter_cons_True _ c cs) by done. rewrite bind_cons. f_equal.
    apply filter_all. eapply Forall_impl; [apply call_entries_row|].
    cbn. congruence.
  - rewrite (filter_cons_False _ c cs) by done.
    rewrite filter_none; [done|].
    eapply Forall_impl; [apply call_entries_row|]. cbn. congruence.
Qed.

(** ** Counting *)

Lemma face_cells_length f : length (face_cells s f) = 2%nat.
Proof. by destruct f. Qed.

Lemma face_calls_entries f row :
  face_calls s f row ≫= call_entries
  = zip_with (fun col v => (row, col, v)) (face_cells s f) [-1.0; 1.0]
    ++ ((fun pl => (row, body_col s f pl.1 pl.2, body_value s f pl.2))
          <$> near_points s f).
Proof.
  unfold face_calls. rewrite bind_cons. cbn [call_entries]. f_equal.
  induction (near_points s f) as [|pl pts IH]; [done|].
  rewrite fmap_cons, bind_cons, IH. done.
Qed.

Lemma face_calls_entries_length f row :
  length (face_calls s f row ≫= call_entries)
  = (2 + length (near_points s f))%nat.
Proof.
  rewrite face_calls_entries, length_app, length_fmap.
  destruct f; done.
Qed.

Lemma filter_bool_split {A} (b : A -> bool) (l : list A) :
  (length (filter (fun a => b a = true) l)
   + length (filter (fun a => b a = false) l))%nat = length l.
Proof.
  induction l as [|a l IH]; [done|]. destruct (b a) eqn:E.
  - rewrite filter_cons_True, filter_cons_False by congruence. cbn. lia.
  - rewrite filter_cons_False, filter_cons_True by congruence. cbn. lia.
Qed.

Lemma countNumNonZeros_two c0 c1 lo hi :
  let r := countNumNonZeros [c0; c1] 2 lo hi in
  (r.1 + r.2 = 2)%Z.
Proof.
  unfold countNumNonZeros. cbn.
  by destruct ((lo <=? c0)%Z && (c0 <? hi)%Z),
              ((lo <=? c1)%Z && (c1 <? hi)%Z).
Qed.

Lemma face_nnz_sum f :
  (face_d_nnz s f + face_o_nnz s f
   = 2 + Z.of_nat (length (near_points s f)))%Z.
Proof.
  unfold face_d_nnz, face_o_nnz.
  pose proof (filter_bool_split
    (fun pl => in_range (lambdaStart s) (lambdaEnd s) (body_col s f pl.1 pl.2))
    (near_points s f)) as Hsplit. cbn beta in Hsplit.
  assert (let r := countNumNonZeros (face_cells s f) 2
                     (lambdaStart s) (lambdaEnd s) in (r.1 + r.2 = 2)%Z) as HG
    by (destruct f; apply countNumNonZeros_two).
  cbn zeta in HG. lia.
Qed.

End BuilderFacts.

(** * What the 2D builder guarantees *)

Section BuilderTheorems.
Variable s : TairaColoniusSolver.

Lemma PetscMalloc_length size junk :
  length (PetscMalloc size junk) = Z.to_nat size.
Proof. unfold PetscMalloc. by rewrite length_fmap, length_seq. Qed.

(** What Pass 1 leaves at index [k] of its two arrays. *)
Lemma count_nonzeros_lookup (d o : list Z) (k : nat) (f : face) :
  local_faces s !! k = Some f ->
  (k < length d)%nat -> (k < length o)%nat ->
  (count_nonzeros s d o).1 !! k = Some (face_d_nnz s f) /\
  (count_nonzeros s d o).2 !! k = Some (face_o_nnz s f).
Proof.
  intros Hf Hd Ho. rewrite count_nonzeros_inserts. cbn [fst snd].
  pose proof (lookup_lt_Some _ _ _ Hf) as Hk.
  rewrite !list_lookup_inserts by (rewrite ?length_fmap; lia).
  by rewrite Nat.sub_0_r, !list_lookup_fmap, Hf.
Qed.

(** What Pass 2 does for row [qStart + k]. *)
Lemma fill_values_row (d o : list Z) (k : nat) (f : face) :
  local_faces s !! k = Some f ->
  row_calls (qStart s + Z.of_nat k)
            (mat_stash (fill_values s (MatCreate_prealloc d o)))
  = face_calls s f (qStart s + Z.of_nat k).
Proof.
  intros Hf. rewrite fill_values_calls. cbn [MatStashAll MatCreate_prealloc
    mat_stash app]. by apply row_calls_calls_from.
Qed.

Lemma G_calls_face_calls f row :
  G_calls (face_calls s f row)
  = [MatSetValues row (face_cells s f) [-1.0; 1.0]].
Proof.
  unfold G_calls, face_calls. rewrite filter_cons_True by done. f_equal.
  apply filter_none, Forall_fmap, Forall_true. by intros [p l].
Qed.

Lemma ET_calls_face_calls f row :
  ET_calls (face_calls s f row)
  = (fun pl => MatSetValue row (body_col s f pl.1 pl.2) (body_value s f pl.2))
      <$> near_points s f.
Proof.
  unfold ET_calls, face_calls. rewrite filter_cons_False by done.
  apply filter_all, Forall_fmap, Forall_true. by intros [p l].
Qed.

(** A body point gets an entry in the row of a face only if it is within
    1.5 grid spacings of the face on both axes. *)
Lemma near_points_within f pl :
  pl ∈ near_points s f ->
  Rabs (disp_x s f pl.2) < 1.5 * h s /\ Rabs (disp_y s f pl.2) < 1.5 * h s.
Proof.
  unfold near_points. rewrite list_elem_of_filter. intros [Hw _].
  unfold within_support in Hw. apply andb_prop in Hw as [Hx Hy].
  apply bool_decide_eq_true in Hx, Hy. done.
Qed.

End BuilderTheorems.

(** C1. For every local row of the 2D operator (the [k]-th face visited,
    within the [qLocalSize] slots of the two arrays), the number of
    nonzeros predicted in Pass 1, [d_nnz[k] + o_nnz[k]], equals the number
    of entries inserted for row [qStart + k] in Pass 2, and both are two
    gradient entries plus one entry for each body point that passes the
    proximity test; for every mesh partition and body-point configuration
    and whatever the buffers contained when allocated. *)
Theorem pass1_counts_match_pass2 (s : TairaColoniusSolver)
    (junk_d junk_o : nat -> Z) (k : nat) (f : face) :
  local_faces s !! k = Some f ->
  (Z.of_nat k < qEnd s - qStart s)%Z ->
  let qLocalSize := (qEnd s - qStart s)%Z in
  let nnz := count_nonzeros s (PetscMalloc qLocalSize junk_d)
                              (PetscMalloc qLocalSize junk_o) in
  let filled := fill_values s (MatCreate_prealloc nnz.1 nnz.2) in
  let inserted := row_entries (qStart s + Z.of_nat k) (mat_stash filled) in
  exists dk ok : Z,
    nnz.1 !! k = Some dk /\ nnz.2 !! k = Some ok /\
    (dk + ok)%Z = Z.of_nat (length inserted) /\
    length inserted = (2 + length (near_points s f))%nat.
Proof.
  intros Hf Hk qLocalSize nnz filled inserted.
  destruct (count_nonzeros_lookup s (PetscMalloc qLocalSize junk_d)
              (PetscMalloc qLocalSize junk_o) k f Hf) as [Hd Ho];
    [rewrite PetscMalloc_length; lia..|].
  assert (length inserted = (2 + length (near_points s f))%nat) as Hlen.
  { subst inserted filled.
    by rewrite row_entries_row_calls, (fill_values_row s _ _ k f),
               face_calls_entries_length. }
  exists (face_d_nnz s f), (face_o_nnz s f). repeat split; [done..| |done].
  rewrite Hlen, face_nnz_sum. lia.
Qed.

(** C3. For every row of the 2D operator, whatever the mesh and the body
    points, the G portion hands PETSc exactly two entries for the row, of
    values -1 and +1, at the two pressure cells next to the face: cells
    [(j, i)] and [(j, i+1)] for a U face, cells [(j, i)] and [(j+1, i)] for
    a V face. *)
Theorem gradient_block_two_entries (s : TairaColoniusSolver)
    (d o : list Z) (k : nat) (f : face) :
  local_faces s !! k = Some f ->
  let row := (qStart s + Z.of_nat k)%Z in
  let cell j i := PetscInt_of_Real (pGlobalIdx s j i) in
  let G := G_calls (row_calls row
             (mat_stash (fill_values s (MatCreate_prealloc d o)))) in
  G ≫= call_entries
  = match f with
    | UFace j i => [(row, cell j i, -1); (row, cell j (i + 1)%Z, 1)]
    | VFace j i => [(row, cell j i, -1); (row, cell (j + 1)%Z i, 1)]
    end.
Proof.
  intros Hf row cell G. subst G row cell.
  rewrite (fill_values_row s d o k f) by done. rewrite G_calls_face_calls.
  assert (-1.0 = -1) as -> by lra. assert (1.0 = 1) as -> by lra.
  by destruct f.
Qed.

(** ** The small configuration, evaluated *)

Lemma PetscInt_of_Real_IZR (z : Z) : PetscInt_of_Real (IZR z) = z.
Proof.
  unfold PetscInt_of_Real. destruct (Rleb 0 (IZR z)).
  - apply ZfloorZ.
  - apply Zceil_eq. lra.
Qed.

(** Truncation of a real in [0, 1). *)
Lemma PetscInt_of_Real_small v : 0 <= v < 1 -> PetscInt_of_Real v = 0%Z.
Proof.
  intros Hv. unfold PetscInt_of_Real. rewrite Rleb_true by lra.
  apply Zfloor_eq. lra.
Qed.

Lemma sqrt_one_dec : sqrt (-3.0 * 0 * 0 + 1.0) = 1.
Proof.
  replace (-3.0 * 0 * 0 + 1.0) with 1 by lra. apply sqrt_1.
Qed.

Lemma dhRoma_0_1 : dhRoma 0 1 = 2 / 3.
Proof.
  rewrite dhRoma_inner_branch.
  - rewrite Rabs_R0. replace (0 / 1) with 0 by lra.
    unfold dhRoma_inner. rewrite sqrt_one_dec. lra.
  - rewrite Rabs_R0. lra.
Qed.

Lemma delta_0_0_1 : delta 0 0 1 = 4 / 9.
Proof. unfold delta. rewrite dhRoma_0_1. lra. Qed.

Lemma two_cells_faces : local_faces two_cells = [UFace 0 0].
Proof. reflexivity. Qed.

Lemma two_cells_disp :
  disp_x two_cells (UFace 0 0) 0 = 0 /\ disp_y two_cells (UFace 0 0) 0 = 0.
Proof.
  unfold disp_x, disp_y, face_x, face_y.
  change (vec_get 0 (mesh_x (mesh two_cells)) (0 + 1)) with 1.
  change (vec_get 0 (mesh_y (mesh two_cells)) 0) with 0.
  change (vec_get 0 (mesh_y (mesh two_cells)) (0 + 1)) with 1.
  change (vec_get 0 (x two_cells) 0) with 1.
  change (vec_get 0 (y two_cells) 0) with 0.5.
  lra.
Qed.

Lemma two_cells_near : near_points two_cells (UFace 0 0) = [(0%Z, 0%Z)].
Proof.
  unfold near_points.
  change (body_points two_cells) with [(0%Z, 0%Z)].
  rewrite filter_cons_True; [done|]. cbn [snd].
  unfold within_support. destruct two_cells_disp as [-> ->].
  rewrite Rabs_R0. change (h two_cells) with 1.
  by rewrite Rltb_true by lra.
Qed.

Lemma two_cells_body_value : body_value two_cells (UFace 0 0) 0 = 0.
Proof.
  unfold body_value. destruct two_cells_disp as [-> ->].
  change (h two_cells) with 1. rewrite delta_0_0_1.
  rewrite PetscInt_of_Real_small; [done|lra].
Qed.

Lemma two_cells_cells : face_cells two_cells (UFace 0 0) = [0%Z; 1%Z].
Proof.
  cbn [face_cells]. change (pGlobalIdx two_cells 0 0) with (IZR 0).
  change (pGlobalIdx two_cells 0 (0 + 1)) with (IZR 1).
  by rewrite !PetscInt_of_Real_IZR.
Qed.

(** Pass 1 on the small configuration: the allocator's leftovers are
    overwritten, three local columns (two cells and one body point), no
    remote one. *)
Lemma two_cells_nnz (junk_d junk_o : Z) :
  count_nonzeros two_cells [junk_d] [junk_o] = ([3%Z], [0%Z]).
Proof.
  rewrite count_nonzeros_inserts, two_cells_faces.
  cbn [fmap list_fmap list_inserts]. unfold face_d_nnz, face_o_nnz.
  rewrite two_cells_near, two_cells_cells. reflexivity.
Qed.

(** All the calls Pass 2 makes on the small configuration. *)
Lemma two_cells_calls d o :
  mat_stash (fill_values two_cells (MatCreate_prealloc d o))
  = [MatSetValues 0 [0%Z; 1%Z] [-1.0; 1.0]; MatSetValue 0 2 0].
Proof.
  rewrite fill_values_calls, two_cells_faces.
  cbn [MatStashAll MatCreate_prealloc mat_stash app calls_from].
  unfold face_calls. rewrite two_cells_near, two_cells_cells.
  cbn [fmap list_fmap fst snd].
  rewrite two_cells_body_value. reflexivity.
Qed.

Lemma length_filter_fmap {A B} (g : A -> B) (P : B -> Prop)
    `{!forall b, Decision (P b)} (l : list A) :
  length (filter P (g <$> l)) = length (filter (fun a => P (g a)) l).
Proof.
  induction l as [|a l IH]; [done|]. rewrite fmap_cons.
  destruct (decide (P (g a))).
  - rewrite !filter_cons_True by done. cbn. by rewrite IH.
  - by rewrite !filter_cons_False by done.
Qed.

Lemma MatSetValue_entries {P} (row : Z) (col : P -> Z) (val : P -> R)
    (l : list P) :
  ((fun p => MatSetValue row (col p) (val p)) <$> l) ≫= call_entries
  = (fun p => (row, col p, val p)) <$> l.
Proof.
  induction l as [|p l IH]; [done|]. by rewrite !fmap_cons, bind_cons, IH.
Qed.

(** C10. For a body point [l] listed under process [procIdx], the
    body-force column used in a U row is [bodyGlobalIndices[l]] and in a V
    row [bodyGlobalIndices[l] + numBoundaryPointsOnProcess[procIdx]].  Pass
    2 inserts at these columns, and Pass 1 classifies as local or remote
    exactly the columns at which Pass 2 inserts; the two columns of one
    point differ as soon as the process has at least one boundary point. *)
Theorem body_force_column_rule (s : TairaColoniusSolver)
    (d0 o0 : list Z) (k : nat) (f : face) :
  local_faces s !! k = Some f ->
  (k < length d0)%nat -> (k < length o0)%nat ->
  let row := (qStart s + Z.of_nat k)%Z in
  let col (procIdx l : Z) :=
    match f with
    | UFace _ _ => vec_get 0%Z (bodyGlobalIndices s) l
    | VFace _ _ => (vec_get 0 (bodyGlobalIndices s) l
                    + vec_get 0 (numBoundaryPointsOnProcess s) procIdx)%Z
    end in
  let ET := ET_calls (row_calls row
              (mat_stash (fill_values s (MatCreate_prealloc d0 o0)))) in
  let G := countNumNonZeros (face_cells s f) 2 (lambdaStart s) (lambdaEnd s) in
  let nnz := count_nonzeros s d0 o0 in
  ET = (fun pl => MatSetValue row (col pl.1 pl.2) (body_value s f pl.2))
         <$> near_points s f /\
  nnz.1 !! k
    = Some (G.1 + local_count (lambdaStart s) (lambdaEnd s)
                    (ET ≫= call_entries))%Z /\
  nnz.2 !! k
    = Some (G.2 + remote_count (lambdaStart s) (lambdaEnd s)
                    (ET ≫= call_entries))%Z /\
  (forall procIdx l,
     (1 <= vec_get 0 (numBoundaryPointsOnProcess s) procIdx)%Z ->
     vec_get 0%Z (bodyGlobalIndices s) l
     <> (vec_get 0 (bodyGlobalIndices s) l
         + vec_get 0 (numBoundaryPointsOnProcess s) procIdx)%Z).
Proof.
  intros Hf Hd Ho row col ET G nnz.
  assert (ET = (fun pl => MatSetValue row (col pl.1 pl.2) (body_value s f pl.2))
                 <$> near_points s f) as HET.
  { subst ET row. rewrite (fill_values_row s d0 o0 k f) by done.
    rewrite ET_calls_face_calls. subst col. by destruct f. }
  destruct (count_nonzeros_lookup s d0 o0 k f Hf Hd Ho) as [Hdk Hok].
  split; [done|]. rewrite HET, MatSetValue_entries.
  unfold local_count, remote_count. rewrite !length_filter_fmap. cbn [fst snd].
  repeat split.
  - subst nnz. rewrite Hdk. unfold face_d_nnz. subst col G. by destruct f.
  - subst nnz. rewrite Hok. unfold face_o_nnz. subst col G. by destruct f.
  - intros procIdx l Hn. lia.
Qed.

Lemma pass1_counts_match_pass2_witness :
  local_faces two_cells !! 0%nat = Some (UFace 0 0) /\
  (Z.of_nat 0 < qEnd two_cells - qStart two_cells)%Z /\
  let nnz := count_nonzeros two_cells (PetscMalloc 1 (fun _ => 7%Z))
                                      (PetscMalloc 1 (fun _ => 9%Z)) in
  let filled := fill_values two_cells (MatCreate_prealloc nnz.1 nnz.2) in
  let inserted := row_entries 0 (mat_stash filled) in
  exists dk ok : Z,
    nnz.1 !! 0%nat = Some dk /\ nnz.2 !! 0%nat = Some ok /\
    (dk + ok)%Z = Z.of_nat (length inserted) /\
    length inserted = (2 + length (near_points two_cells (UFace 0 0)))%nat.
Proof.
  split; [reflexivity|]. split; [cbn; lia|].
  apply (pass1_counts_match_pass2 two_cells (fun _ => 7%Z) (fun _ => 9%Z)
           0 (UFace 0 0)); [reflexivity | cbn; lia].
Defined.

Lemma gradient_block_two_entries_witness :
  local_faces two_cells !! 0%nat = Some (UFace 0 0) /\
  G_calls (row_calls 0 (mat_stash (fill_values two_cells
                                     (MatCreate_prealloc [] []))))
    ≫= call_entries
  = [(0%Z, PetscInt_of_Real (pGlobalIdx two_cells 0 0), -1);
     (0%Z, PetscInt_of_Real (pGlobalIdx two_cells 0 (0 + 1)), 1)].
Proof.
  split; [reflexivity|].
  apply (gradient_block_two_entries two_cells [] [] 0 (UFace 0 0)).
  reflexivity.
Defined.

Lemma body_force_column_rule_witness :
  local_faces two_cells !! 0%nat = Some (UFace 0 0) /\
  (0 < length [5%Z])%nat /\ (0 < length [6%Z])%nat /\
  ET_calls (row_calls 0 (mat_stash (fill_values two_cells
                                      (MatCreate_prealloc [5%Z] [6%Z]))))
  = (fun pl => MatSetValue 0 (vec_get 0%Z (bodyGlobalIndices two_cells) pl.2)
                 (body_value two_cells (UFace 0 0) pl.2))
      <$> near_points two_cells (UFace 0 0).
Proof.
  split; [reflexivity|]. split; [cbn; lia|]. split; [cbn; lia|].
  apply (body_force_column_rule two_cells [5%Z] [6%Z] 0 (UFace 0 0));
    [reflexivity | cbn; lia | cbn; lia].
Defined.

(** * The finalisation *)

Lemma MatGetValue_MatTranspose (A : Mat) (row col : Z) :
  MatGetValue (MatTranspose A) col row = MatGetValue A row col.
Proof.
  unfold MatGetValue, MatTranspose. cbn [mat_val].
  change (col, row) with (prod_swap (row, col)).
  by rewrite lookup_kmap by apply _.
Qed.

Lemma MatGetValue_MatDiagonalScale (A : Mat) (l : Vec) (row col : Z) :
  MatGetValue (MatDiagonalScale A l) row col
  = vec_get 0 l row * MatGetValue A row col.
Proof.
  unfold MatGetValue, MatDiagonalScale. cbn [mat_val].
  rewrite map_lookup_imap. destruct (mat_val A !! (row, col)); cbn; lra.
Qed.

Lemma generateBNQ_QT s junk_d junk_o :
  QT (generateBNQ s junk_d junk_o)
  = MatTranspose (assembled_operator s junk_d junk_o).
Proof.
  unfold generateBNQ, assembled_operator.
  by destruct (count_nonzeros s _ _).
Qed.

Lemma generateBNQ_BNQ s junk_d junk_o :
  BNQ (generateBNQ s junk_d junk_o)
  = MatDiagonalScale (assembled_operator s junk_d junk_o) (BN s).
Proof.
  unfold generateBNQ, assembled_operator.
  by destruct (count_nonzeros s _ _).
Qed.

Lemma assembled_operator_val s junk_d junk_o :
  mat_val (assembled_operator s junk_d junk_o)
  = insert_entries ∅ (calls_from s (qStart s) (local_faces s) ≫= call_entries).
Proof.
  unfold assembled_operator. destruct (count_nonzeros s _ _) as [d o].
  by rewrite fill_values_calls.
Qed.

Lemma two_cells_gradient_value junk_d junk_o :
  MatGetValue (assembled_operator two_cells junk_d junk_o) 0 0 = -1.
Proof.
  unfold MatGetValue. rewrite assembled_operator_val.
  pose proof (two_cells_calls [] []) as Hc.
  rewrite fill_values_calls in Hc.
  cbn [MatStashAll MatCreate_prealloc mat_stash app] in Hc. rewrite Hc.
  cbn. rewrite !lookup_insert_ne by done. rewrite lookup_insert_eq. cbn. lra.
Qed.

(** C6. The 2D builder finalises in this order: it assembles [BNQ], then
    forms [QT] as the transpose of the assembled matrix, then scales the
    rows of [BNQ] by [BN].  So [QT] is the transpose of the operator
    before scaling, and [BNQ] ends up as the scaled operator; on the small
    configuration, where [BN] is 2, [QT] is not the transpose of the final
    [BNQ]. *)
Theorem transpose_before_scaling (s : TairaColoniusSolver)
    (junk_d junk_o : nat -> Z) :
  let A := assembled_operator s junk_d junk_o in
  let s' := generateBNQ s junk_d junk_o in
  QT s' = MatTranspose A /\
  BNQ s' = MatDiagonalScale A (BN s) /\
  (forall row col, MatGetValue (QT s') col row = MatGetValue A row col) /\
  (forall row col,
     MatGetValue (BNQ s') row col = vec_get 0 (BN s) row * MatGetValue A row col) /\
  (let t := generateBNQ two_cells junk_d junk_o in
   MatGetValue (QT t) 0 0 = -1 /\
   MatGetValue (MatTranspose (BNQ t)) 0 0 = -2 /\
   QT t <> MatTranspose (BNQ t)).
Proof.
  intros A s'. subst A s'.
  split; [apply generateBNQ_QT|]. split; [apply generateBNQ_BNQ|].
  split; [|split].
  - intros row col. by rewrite generateBNQ_QT, MatGetValue_MatTranspose.
  - intros row col. by rewrite generateBNQ_BNQ, MatGetValue_MatDiagonalScale.
  - cbn zeta.
    assert (MatGetValue (QT (generateBNQ two_cells junk_d junk_o)) 0 0 = -1)
      as HQT.
    { rewrite generateBNQ_QT, MatGetValue_MatTranspose.
      apply two_cells_gradient_value. }
    assert (MatGetValue
              (MatTranspose (BNQ (generateBNQ two_cells junk_d junk_o))) 0 0
            = -2) as HT.
    { rewrite MatGetValue_MatTranspose, generateBNQ_BNQ,
        MatGetValue_MatDiagonalScale, two_cells_gradient_value.
      change (vec_get 0 (BN two_cells) 0) with 2. lra. }
    repeat split; [done..|].
    intros Heq. rewrite Heq in HQT. lra.
Qed.

(** C2. On the small configuration the body point sits on the U face:
    the displacement is (0, 0), within the support, and
    [h * delta(0, 0, h)] is 4/9; the value that Pass 2 passes to
    [MatSetValue] for the body-force column is 0, because it goes through
    the integer variable [value]. *)
Theorem body_force_value_truncated :
  let s := two_cells in
  let dx := disp_x s (UFace 0 0) 0 in
  let dy := disp_y s (UFace 0 0) 0 in
  within_support s (UFace 0 0) 0 = true /\
  h s * delta dx dy (h s) = 4 / 9 /\
  mat_stash (fill_values s (MatCreate_prealloc [] []))
  = [MatSetValues 0 [0%Z; 1%Z] [-1.0; 1.0]; MatSetValue 0 2 0].
Proof.
  cbn zeta. split; [|split].
  - unfold within_support. destruct two_cells_disp as [-> ->].
    rewrite Rabs_R0. change (h two_cells) with 1.
    by rewrite Rltb_true by lra.
  - destruct two_cells_disp as [-> ->]. change (h two_cells) with 1.
    rewrite delta_0_0_1. lra.
  - apply two_cells_calls.
Qed.

(** C5. The 3D specialisation does nothing: the solver is returned as it
    was, [BNQ], [QT] and every other member unchanged. *)
Theorem generateBNQ_3d_noop (s : TairaColoniusSolver) :
  Dim3.generateBNQ s = s /\
  BNQ (Dim3.generateBNQ s) = BNQ s /\
  QT (Dim3.generateBNQ s) = QT s.
Proof. by unfold Dim3.generateBNQ. Qed.

(** * Further properties of the kernel *)

(** The middle expression also gives the value of [dhRoma] at the radius
    0.5 itself, where the code takes the inner branch. *)
Lemma dhRoma_middle_closed x h :
  0 < h -> 0.5 <= Rabs x / h <= 1.5 ->
  dhRoma x h = dhRoma_middle (Rabs x / h) h.
Proof.
  intros Hh [Hlo Hhi]. destruct (Req_dec (Rabs x / h) 0.5) as [Heq|Hne].
  - rewrite dhRoma_inner_branch by lra.
    by rewrite Heq, dhRoma_inner_half, dhRoma_middle_half.
  - apply dhRoma_middle_branch. lra.
Qed.

Lemma ratio_lt x h c : 0 < h -> (Rabs x / h < c <-> Rabs x < c * h).
Proof.
  intros Hh. pose proof (Rinv_0_lt_compat h Hh) as Hi. unfold Rdiv. split.
  - intros H. apply (Rmult_lt_compat_r h) in H; [|done].
    rewrite Rmult_assoc, Rinv_l in H by lra. lra.
  - intros H. apply (Rmult_lt_compat_r (/ h)) in H; [|done].
    rewrite (Rmult_assoc c), Rinv_r in H by lra. lra.
Qed.


Lemma dhRoma_middle_pos r h : 0 < h -> r < 1.5 -> 0 < dhRoma_middle r h.
Proof.
  intros Hh Hr. unfold dhRoma_middle.
  apply Rmult_lt_0_compat; [apply Rdiv_lt_0_compat; lra|].
  assert (sqrt (-3.0 * (1 - r) * (1 - r) + 1.0) < 5.0 - 3.0 * r); [|lra].
  destruct (Rle_dec 0 (-3.0 * (1 - r) * (1 - r) + 1.0)) as [Hrad|Hrad].
  - rewrite <- (sqrt_square (5.0 - 3.0 * r)) by lra.
    apply sqrt_lt_1_alt. split; [done|].
    assert (0 < (3 - 2 * r) * (3 - 2 * r)) by (apply Rmult_lt_0_compat; lra).
    undecimal. lra.
  - rewrite sqrt_neg_0 by lra. lra.
Qed.

Lemma dhRoma_inner_pos r h : 0 < h -> 0 < dhRoma_inner r h.
Proof.
  intros Hh. unfold dhRoma_inner.
  apply Rmult_lt_0_compat; [apply Rdiv_lt_0_compat; lra|].
  pose proof (sqrt_pos (-3.0 * r * r + 1.0)). lra.
Qed.

Lemma dhRoma_pos_iff x h : 0 < h -> (0 < dhRoma x h <-> Rabs x < 1.5 * h).
Proof.
  intros Hh. rewrite <- ratio_lt by done.
  destruct (dhRoma_branches x h) as [[Hr ->]|[[Hr ->]|[Hr ->]]].
  - split; lra.
  - destruct (Req_dec (Rabs x / h) 1.5) as [->|Hne].
    + rewrite dhRoma_middle_three_halves by done. split; lra.
    + split; [lra|]. intros _. apply dhRoma_middle_pos; lra.
  - split; [lra|]. intros _. by apply dhRoma_inner_pos.
Qed.

Lemma dhRoma_ge_0 x h : 0 < h -> 0 <= dhRoma x h.
Proof.
  intros Hh. destruct (dhRoma_branches x h) as [[_ ->]|[[[_ Hr] ->]|[_ ->]]].
  - lra.
  - by apply dhRoma_middle_nonneg.
  - by apply dhRoma_inner_nonneg.
Qed.

Lemma dhRoma_opp x h : dhRoma (- x) h = dhRoma x h.
Proof. unfold dhRoma. by rewrite Rabs_Ropp. Qed.

(** X1. The kernel is even in the displacement, so the 2D kernel does not
    change when either displacement changes sign; it does not change when
    the two displacements are exchanged either. *)
Theorem delta_symmetric (x y h : R) :
  dhRoma (- x) h = dhRoma x h /\
  delta (- x) y h = delta x y h /\
  delta x (- y) h = delta x y h /\
  delta y x h = delta x y h.
Proof.
  unfold delta. rewrite !dhRoma_opp. repeat split. apply Rmult_comm.
Qed.

(** X2. In exact real arithmetic and for [h > 0], the support of the
    kernel is exactly the open interval of radius [1.5 h]: [dhRoma x h] is
    positive when [|x| < 1.5 h] and zero otherwise; [delta x y h] is
    positive exactly when both displacements are inside.  (On doubles the
    value within a few roundings of the edge can come out as 0 or as a
    tiny negative number.) *)
Theorem kernel_support (x y h : R) :
  0 < h ->
  (0 < dhRoma x h <-> Rabs x < 1.5 * h) /\
  (dhRoma x h = 0 <-> 1.5 * h <= Rabs x) /\
  (0 < delta x y h <-> Rabs x < 1.5 * h /\ Rabs y < 1.5 * h).
Proof.
  intros Hh. pose proof (dhRoma_pos_iff x h Hh) as Hx.
  pose proof (dhRoma_pos_iff y h Hh) as Hy.
  pose proof (dhRoma_ge_0 x h Hh) as Hx0.
  pose proof (dhRoma_ge_0 y h Hh) as Hy0.
  split; [done|]. split.
  - split.
    + intros H0. apply Rnot_lt_le. intros Hlt. apply Hx in Hlt. lra.
    + intros Hge. apply Rle_antisym; [|done]. apply Rnot_lt_le.
      intros Hpos. apply Hx in Hpos. lra.
  - unfold delta. split.
    + intros Hpos. split.
      * apply Hx. destruct Hx0 as [H|H]; [done|].
        rewrite <- H, Rmult_0_l in Hpos. lra.
      * apply Hy. destruct Hy0 as [H|H]; [done|].
        rewrite <- H, Rmult_0_r in Hpos. lra.
    + intros [H1 H2]. apply Rmult_lt_0_compat; [by apply Hx|by apply Hy].
Qed.

Lemma kernel_support_witness :
  0 < 2 /\ (0 < dhRoma 1 2 <-> Rabs 1 < 1.5 * 2).
Proof.
  split; [lra|]. apply (kernel_support 1 1 2). lra.
Defined.













Lemma dhRoma_inner_mono r1 r2 h :
  0 < h -> 0 <= r1 <= r2 -> dhRoma_inner r2 h <= dhRoma_inner r1 h.
Proof.
  intros Hh [H0 H12]. unfold dhRoma_inner.
  apply Rmult_le_compat_l; [apply Rlt_le, Rdiv_lt_0_compat; lra|].
  apply Rplus_le_compat_l, sqrt_le_1_alt.
  assert (r1 * r1 <= r2 * r2) by (apply Rmult_le_compat; lra).
  undecimal. lra.
Qed.

Lemma dhRoma_middle_mono a b h :
  0 < h -> 0.5 <= a -> a <= b -> b <= 1.5 ->
  dhRoma_middle b h <= dhRoma_middle a h.
Proof.
  intros Hh Ha Hab Hb. unfold dhRoma_middle.
  apply Rmult_le_compat_l; [apply Rlt_le, Rdiv_lt_0_compat; lra|].
  set (A := fun r => -3.0 * (1 - r) * (1 - r) + 1.0).
  change (5.0 - 3.0 * b - sqrt (A b) <= 5.0 - 3.0 * a - sqrt (A a)).
  assert (forall r, 0.5 <= r <= 1.5 -> 1 / 4 <= A r) as HA.
  { intros r [Hr1 Hr2]. subst A. cbn beta.
    assert (0 <= (r - 0.5) * (1.5 - r)) by (apply Rmult_le_pos; lra).
    undecimal. lra. }
  assert (forall r, 0.5 <= r <= 1.5 -> 1 / 2 <= sqrt (A r)) as HS.
  { intros r Hr. rewrite <- sqrt_quarter. apply sqrt_le_1_alt. by apply HA. }
  pose proof (HS a ltac:(lra)) as Hu. pose proof (HS b ltac:(lra)) as Hv.
  pose proof (sqrt_sqrt (A a) ltac:(pose proof (HA a); lra)) as Hu2.
  pose proof (sqrt_sqrt (A b) ltac:(pose proof (HA b); lra)) as Hv2.
  set (u := sqrt (A a)) in *. set (v := sqrt (A b)) in *.
  assert (u - v <= 3 * (b - a)); [|undecimal; lra].
  apply (Rmult_le_reg_r (u + v)); [lra|].
  assert ((u - v) * (u + v) = 3 * ((b - a) * (a + b - 2))) as ->.
  { replace ((u - v) * (u + v)) with (u * u - v * v) by ring.
    rewrite Hu2, Hv2. subst A. cbn beta. undecimal. field. }
  rewrite Rmult_assoc. apply Rmult_le_compat_l; [lra|].
  apply Rmult_le_compat_l; lra.
Qed.

Lemma ratio_mono x1 x2 h :
  0 < h -> Rabs x1 <= Rabs x2 -> Rabs x1 / h <= Rabs x2 / h.
Proof.
  intros Hh Hx. apply Rmult_le_compat_r; [|done].
  by apply Rlt_le, Rinv_0_lt_compat.
Qed.

(** X7. In exact real arithmetic and for [h > 0], the kernel does not
    increase with the distance: a displacement of larger magnitude never
    gets a larger weight.  (On doubles two neighbouring displacements can
    be out of order by a rounding error.) *)
Theorem kernel_decreasing (x1 x2 h : R) :
  0 < h -> Rabs x1 <= Rabs x2 -> dhRoma x2 h <= dhRoma x1 h.
Proof.
  intros Hh Hx. pose proof (ratio_mono x1 x2 h Hh Hx) as Hr.
  pose proof (ratio_nonneg x1 h Hh) as Hr1.
  destruct (dhRoma_branches x2 h) as [[_ ->]|[[H2 ->]|[H2 ->]]].
  - by apply dhRoma_ge_0.
  - destruct (Rle_dec 0.5 (Rabs x1 / h)) as [H1|H1].
    + rewrite (dhRoma_middle_closed x1) by (done || lra).
      apply dhRoma_middle_mono; lra.
    + rewrite (dhRoma_inner_branch x1) by lra.
      etrans; [apply (dhRoma_middle_mono 0.5); lra|].
      rewrite dhRoma_middle_half, <- dhRoma_inner_half by done.
      apply dhRoma_inner_mono; [done|lra].
  - rewrite (dhRoma_inner_branch x1) by lra.
    apply dhRoma_inner_mono; [done|lra].
Qed.

Lemma kernel_decreasing_witness :
  0 < 1 /\ Rabs 0 <= Rabs 1 /\ dhRoma 1 1 <= dhRoma 0 1.
Proof.
  split; [lra|]. split; [rewrite Rabs_R0, Rabs_R1; lra|].
  apply (kernel_decreasing 0 1 1); [lra | rewrite Rabs_R0, Rabs_R1; lra].
Defined.

(** * Further properties of the 2D builder *)

Lemma within_support_iff s f l :
  0 < h s ->
  within_support s f l = true
  <-> Rabs (disp_x s f l) < 1.5 * h s /\ Rabs (disp_y s f l) < 1.5 * h s.
Proof.
  intros Hh. unfold within_support, Rltb.
  rewrite andb_true_iff, !bool_decide_eq_true. done.
Qed.

Lemma delta_pos_iff x y h :
  0 < h -> (0 < delta x y h <-> Rabs x < 1.5 * h /\ Rabs y < 1.5 * h).
Proof.
  intros Hh. pose proof (dhRoma_pos_iff x h Hh) as Hx.
  pose proof (dhRoma_pos_iff y h Hh) as Hy.
  pose proof (dhRoma_ge_0 x h Hh) as Hx0.
  pose proof (dhRoma_ge_0 y h Hh) as Hy0.
  unfold delta. split.
  - intros Hpos. split.
    + apply Hx. destruct Hx0 as [H|H]; [done|].
      rewrite <- H, Rmult_0_l in Hpos. lra.
    + apply Hy. destruct Hy0 as [H|H]; [done|].
      rewrite <- H, Rmult_0_r in Hpos. lra.
  - intros [H1 H2]. apply Rmult_lt_0_compat; [by apply Hx|by apply Hy].
Qed.

Lemma delta_ge_0 x y h : 0 < h -> 0 <= delta x y h.
Proof.
  intros Hh. unfold delta. apply Rmult_le_pos; by apply dhRoma_ge_0.
Qed.

(** X8. With a positive spacing, the proximity test of the two passes
    selects exactly the body points whose kernel weight is positive: a
    point that passes has [h * delta > 0] and a point that is skipped
    would have contributed exactly 0, so the filter drops nothing. *)
Theorem proximity_test_matches_support (s : TairaColoniusSolver)
    (f : face) (l : Z) :
  0 < h s ->
  let w := h s * delta (disp_x s f l) (disp_y s f l) (h s) in
  (within_support s f l = true <-> 0 < w) /\
  (within_support s f l = false -> w = 0) /\
  (forall pl, pl ∈ near_points s f ->
     0 < h s * delta (disp_x s f pl.2) (disp_y s f pl.2) (h s)).
Proof.
  intros Hh w.
  pose proof (delta_pos_iff (disp_x s f l) (disp_y s f l) (h s) Hh) as Hd.
  pose proof (delta_ge_0 (disp_x s f l) (disp_y s f l) (h s) Hh) as Hd0.
  pose proof (within_support_iff s f l Hh) as Hw.
  assert (within_support s f l = true <-> 0 < w) as Hiff.
  { rewrite Hw, <- Hd. subst w. split.
    - intros H. by apply Rmult_lt_0_compat.
    - intros H. destruct Hd0 as [|H0]; [done|].
      rewrite <- H0, Rmult_0_r in H. lra. }
  split; [done|]. split.
  - intros Hfalse. subst w. destruct Hd0 as [Hpos|<-]; [|lra].
    assert (within_support s f l = true) as Htrue.
    { apply Hiff. by apply Rmult_lt_0_compat. }
    congruence.
  - intros pl Hpl. apply near_points_within in Hpl.
    apply Rmult_lt_0_compat; [done|]. by apply delta_pos_iff.
Qed.

Lemma proximity_test_matches_support_witness :
  0 < h two_cells /\
  (within_support two_cells (UFace 0 0) 0 = true
   <-> 0 < h two_cells * delta (disp_x two_cells (UFace 0 0) 0)
                               (disp_y two_cells (UFace 0 0) 0)
                               (h two_cells)).
Proof.
  split; [cbn; lra|].
  apply (proximity_test_matches_support two_cells (UFace 0 0) 0). cbn. lra.
Defined.

Lemma elem_of_calls_from s c row0 fs :
  c ∈ calls_from s row0 fs ->
  exists (k : nat) f,
    fs !! k = Some f /\ c ∈ face_calls s f (row0 + Z.of_nat k).
Proof.
  revert row0. induction fs as [|f fs IH]; intros row0; cbn [calls_from].
  - by intros ?%elem_of_nil.
  - rewrite elem_of_app. intros [Hc|Hc].
    + exists 0%nat, f. by rewrite Z.add_0_r.
    + destruct (IH _ Hc) as (k & f' & Hk & Hc').
      exists (S k), f'. split; [done|].
      by replace (row0 + Z.of_nat (S k))%Z with (row0 + 1 + Z.of_nat k)%Z
        by lia.
Qed.




(** ** Rows and their order *)

Lemma bind_singleton_fmap {A B} (g : A -> B) (l : list A) :
  l ≫= (fun a => [g a]) = g <$> l.
Proof. induction l as [|a l IH]; [done|]. by rewrite bind_cons, IH. Qed.

Lemma length_bind_const {A B} (f : A -> list B) (M : nat) (l : list A) :
  (forall a, length (f a) = M) -> length (l ≫= f) = (length l * M)%nat.
Proof.
  intros Hf. induction l as [|a l IH]; [done|].
  rewrite bind_cons, length_app, Hf, IH. cbn. lia.
Qed.

Lemma lookup_bind_const {A B} (f : A -> list B) (M : nat) (l : list A)
    (a b : nat) (x : A) :
  (forall y, length (f y) = M) -> l !! a = Some x -> (b < M)%nat ->
  (l ≫= f) !! (a * M + b)%nat = f x !! b.
Proof.
  intros Hf. revert a. induction l as [|y l IH]; intros a Ha Hb; [done|].
  rewrite bind_cons. destruct a as [|a].
  - injection Ha as ->. by rewrite lookup_app_l by (rewrite Hf; lia).
  - cbn in Ha. rewrite lookup_app_r by (rewrite Hf; lia).
    rewrite Hf. replace (S a * M + b - M)%nat with (a * M + b)%nat by lia.
    by apply IH.
Qed.

Lemma grid_row (c : DMDACorners) (j : Z) :
  seqZ (mstart c) (m c) ≫= (fun i => [(j, i)])
  = (fun i => (j, i)) <$> seqZ (mstart c) (m c).
Proof. apply bind_singleton_fmap. Qed.

Lemma length_grid c :
  length (grid c) = (Z.to_nat (n c) * Z.to_nat (m c))%nat.
Proof.
  unfold grid. rewrite (length_bind_const _ (Z.to_nat (m c))).
  - by rewrite length_seqZ.
  - intros j. by rewrite grid_row, length_fmap, length_seqZ.
Qed.

(** The loops run through a grid row by row. *)
Lemma lookup_grid c (a b : nat) :
  (a < Z.to_nat (n c))%nat -> (b < Z.to_nat (m c))%nat ->
  grid c !! (a * Z.to_nat (m c) + b)%nat
  = Some ((nstart c + Z.of_nat a)%Z, (mstart c + Z.of_nat b)%Z).
Proof.
  intros Ha Hb. unfold grid.
  rewrite (lookup_bind_const _ (Z.to_nat (m c)) _ a b
             (nstart c + Z.of_nat a)%Z).
  - rewrite grid_row, list_lookup_fmap, lookup_seqZ_lt by lia. done.
  - intros j. by rewrite grid_row, length_fmap, length_seqZ.
  - apply lookup_seqZ_lt. lia.
  - done.
Qed.

Lemma length_local_faces s :
  length (local_faces s)
  = (Z.to_nat (n (uda s)) * Z.to_nat (m (uda s))
     + Z.to_nat (n (vda s)) * Z.to_nat (m (vda s)))%nat.
Proof.
  unfold local_faces. by rewrite length_app, !length_fmap, !length_grid.
Qed.

Lemma G_calls_calls_from s row0 fs :
  length (G_calls (calls_from s row0 fs)) = length fs.
Proof.
  revert row0. induction fs as [|f fs IH]; intros row0; [done|].
  cbn [calls_from]. unfold G_calls in *.
  rewrite filter_app, length_app, IH.
  change (filter _ (face_calls s f row0)) with (G_calls (face_calls s f row0)).
  by rewrite G_calls_face_calls.
Qed.

(** X10. Pass 2 makes one [MatSetValues] call for each face of the two
    corner boxes, [n * m] faces of each, and every row it sets lies in
    [qStart, qStart + number of faces): it never sets a value in another
    row. *)
Theorem fill_rows_in_range (s : TairaColoniusSolver) (d o : list Z) :
  let stash := mat_stash (fill_values s (MatCreate_prealloc d o)) in
  let faces := (Z.to_nat (n (uda s)) * Z.to_nat (m (uda s))
                + Z.to_nat (n (vda s)) * Z.to_nat (m (vda s)))%nat in
  length (G_calls stash) = faces /\
  (forall c, c ∈ stash ->
     (qStart s <= call_row c < qStart s + Z.of_nat faces)%Z) /\
  (forall e, e ∈ stash ≫= call_entries ->
     (qStart s <= e.1.1 < qStart s + Z.of_nat faces)%Z).
Proof.
  intros stash faces. subst stash faces.
  rewrite fill_values_calls, <- length_local_faces.
  cbn [MatStashAll MatCreate_prealloc mat_stash app].
  pose proof (calls_from_rows s (local_faces s) (qStart s)) as Hrows.
  rewrite Forall_forall in Hrows.
  split; [apply G_calls_calls_from|]. split; [done|].
  intros e He. apply list_elem_of_bind in He as (c & He & Hc).
  pose proof (call_entries_row c) as Hrow. rewrite Forall_forall in Hrow.
  rewrite (Hrow e He). by apply Hrows.
Qed.

(** X11. Row bookkeeping.  Rows are numbered in the order of the loops:
    within the corner box of the U grid the face [(nstart + a, mstart + b)]
    has local index [a * m + b], and the faces of the V grid follow after
    all U faces in the same row-major order.  The gradient entries of that
    row are those of that face. *)
Theorem row_major_numbering (s : TairaColoniusSolver) (d o : list Z)
    (a b : nat) :
  let stash := mat_stash (fill_values s (MatCreate_prealloc d o)) in
  let nU := (Z.to_nat (n (uda s)) * Z.to_nat (m (uda s)))%nat in
  let G f k := [MatSetValues (qStart s + Z.of_nat k) (face_cells s f)
                  [-1.0; 1.0]] in
  ((a < Z.to_nat (n (uda s)))%nat -> (b < Z.to_nat (m (uda s)))%nat ->
   let k := (a * Z.to_nat (m (uda s)) + b)%nat in
   let f := UFace (nstart (uda s) + Z.of_nat a) (mstart (uda s) + Z.of_nat b) in
   local_faces s !! k = Some f /\
   G_calls (row_calls (qStart s + Z.of_nat k) stash) = G f k) /\
  ((a < Z.to_nat (n (vda s)))%nat -> (b < Z.to_nat (m (vda s)))%nat ->
   let k := (nU + (a * Z.to_nat (m (vda s)) + b))%nat in
   let f := VFace (nstart (vda s) + Z.of_nat a) (mstart (vda s) + Z.of_nat b) in
   local_faces s !! k = Some f /\
   G_calls (row_calls (qStart s + Z.of_nat k) stash) = G f k).
Proof.
  intros stash nU G. split; intros Ha Hb k f.
  - assert (local_faces s !! k = Some f) as Hf.
    { unfold local_faces. rewrite lookup_app_l.
      - subst k f. by rewrite list_lookup_fmap, lookup_grid.
      - rewrite length_fmap, length_grid. subst k. nia. }
    split; [done|]. subst stash G. cbn beta.
    by rewrite (fill_values_row s d o k f Hf), G_calls_face_calls.
  - assert (local_faces s !! k = Some f) as Hf.
    { unfold local_faces. rewrite lookup_app_r.
      - rewrite length_fmap, length_grid. subst k nU f.
        replace (_ + _ - _)%nat with (a * Z.to_nat (m (vda s)) + b)%nat by lia.
        by rewrite list_lookup_fmap, lookup_grid.
      - rewrite length_fmap, length_grid. subst k nU. lia. }
    split; [done|]. subst stash G. cbn beta.
    by rewrite (fill_values_row s d o k f Hf), G_calls_face_calls.
Qed.

Lemma row_major_numbering_witness :
  (0 < Z.to_nat (n (uda two_cells)))%nat /\
  (0 < Z.to_nat (m (uda two_cells)))%nat /\
  local_faces two_cells !! (0 * Z.to_nat (m (uda two_cells)) + 0)%nat
  = Some (UFace (nstart (uda two_cells) + Z.of_nat 0)
                (mstart (uda two_cells) + Z.of_nat 0)).
Proof.
  split; [cbn; lia|]. split; [cbn; lia|].
  apply (row_major_numbering two_cells [] [] 0 0); cbn; lia.
Defined.

(** ** No body point in reach *)

Lemma ET_calls_calls_from_nil s row0 fs :
  (forall f, f ∈ fs -> near_points s f = []) ->
  ET_calls (calls_from s row0 fs) = [].
Proof.
  revert row0. induction fs as [|f fs IH]; intros row0 Hfs; [done|].
  cbn [calls_from]. unfold ET_calls in *. rewrite filter_app.
  change (filter _ (face_calls s f row0)) with (ET_calls (face_calls s f row0)).
  rewrite ET_calls_face_calls, (Hfs f) by apply list_elem_of_here.
  cbn. apply IH. intros f' Hf'. apply Hfs. by apply list_elem_of_further.
Qed.

Lemma G_calls_all (cs : list MatCall) : ET_calls cs = [] -> G_calls cs = cs.
Proof.
  unfold ET_calls, G_calls. induction cs as [|c cs IH]; [done|].
  destruct (is_MatSetValues c) eqn:E.
  - rewrite filter_cons_False by congruence. intros H.
    rewrite filter_cons_True by done. by rewrite IH.
  - by rewrite filter_cons_True by done.
Qed.

Lemma G_entries_values s row0 fs e :
  e ∈ G_calls (calls_from s row0 fs) ≫= call_entries -> e.2 = -1 \/ e.2 = 1.
Proof.
  intros He. apply list_elem_of_bind in He as (c & He & Hc).
  unfold G_calls in Hc. apply list_elem_of_filter in Hc as [HG Hc].
  apply elem_of_calls_from in Hc as (k & f & _ & Hc).
  unfold face_calls in Hc. apply elem_of_cons in Hc as [->|Hc].
  - destruct f; cbn in He;
      apply elem_of_cons in He as [->|He]; cbn; try lra;
      apply elem_of_cons in He as [->|He]; cbn; try lra;
      by apply elem_of_nil in He.
  - apply list_elem_of_fmap in Hc as (pl & -> & _). done.
Qed.

(** X12. When no body point passes the proximity test for any local face
    (in particular when there is no body point at all), Pass 2 never calls
    [MatSetValue]: all it sets is the gradient block, one [MatSetValues]
    call for each face, and every value it sets is -1 or +1. *)
Theorem no_body_point_in_reach (s : TairaColoniusSolver) (d o : list Z) :
  (forall f pl, f ∈ local_faces s -> pl ∈ body_points s ->
     within_support s f pl.2 = false) ->
  let stash := mat_stash (fill_values s (MatCreate_prealloc d o)) in
  ET_calls stash = [] /\
  G_calls stash = stash /\
  length stash = length (local_faces s) /\
  (forall e, e ∈ stash ≫= call_entries -> e.2 = -1 \/ e.2 = 1).
Proof.
  intros Hfar stash. subst stash. rewrite fill_values_calls.
  cbn [MatStashAll MatCreate_prealloc mat_stash app].
  assert (ET_calls (calls_from s (qStart s) (local_faces s)) = []) as HET.
  { apply ET_calls_calls_from_nil. intros f Hf. unfold near_points.
    apply filter_none, Forall_forall. intros pl Hpl.
    rewrite (Hfar f pl Hf Hpl). done. }
  pose proof (G_calls_all _ HET) as HG.
  split; [done|]. split; [done|]. split.
  - by rewrite <- HG, G_calls_calls_from.
  - intros e He. rewrite <- HG in He. by eapply G_entries_values.
Qed.

Lemma no_body_point_in_reach_witness :
  (forall f pl, f ∈ local_faces two_cells_bare ->
     pl ∈ body_points two_cells_bare ->
     within_support two_cells_bare f pl.2 = false) /\
  ET_calls (mat_stash (fill_values two_cells_bare (MatCreate_prealloc [] [])))
  = [].
Proof.
  assert (forall f pl, f ∈ local_faces two_cells_bare ->
            pl ∈ body_points two_cells_bare ->
            within_support two_cells_bare f pl.2 = false) as Hfar.
  { intros f pl _ Hpl. change (body_points two_cells_bare) with
      (@nil (Z * Z)) in Hpl. by apply elem_of_nil in Hpl. }
  split; [done|].
  apply (no_body_point_in_reach two_cells_bare [] [] Hfar).
Defined.

(** ** The buffers of Pass 1 *)

(** X13. Pass 1 keeps the size of its two buffers and writes only the
    slots of the faces it visits: every slot from the number of local
    faces on keeps what it held. *)
Theorem count_nonzeros_frame (s : TairaColoniusSolver) (d o : list Z) :
  let nnz := count_nonzeros s d o in
  length nnz.1 = length d /\
  length nnz.2 = length o /\
  (forall k : nat, (length (local_faces s) <= k)%nat ->
     nnz.1 !! k = d !! k /\ nnz.2 !! k = o !! k).
Proof.
  intros nnz. subst nnz. rewrite count_nonzeros_inserts. cbn [fst snd].
  rewrite !length_inserts. split; [done|]. split; [done|].
  intros k Hk.
  by rewrite !list_lookup_inserts_ge by (rewrite length_fmap; lia).
Qed.

(** ** The assembled operator, entry by entry *)

(** With [INSERT_VALUES] the value at a position is the one of the last
    entry set there. *)
Lemma insert_entries_lookup (m : gmap (Z * Z) R) (es : list (Z * Z * R))
    (k : Z * Z) :
  insert_entries m es !! k
  = match last (filter (fun e => (e.1.1, e.1.2) = k) es) with
    | Some e => Some e.2
    | None => m !! k
    end.
Proof.
  unfold insert_entries. revert m.
  induction es as [|e es IH]; intros m; [done|].
  cbn [foldl]. rewrite IH.
  destruct (decide ((e.1.1, e.1.2) = k)) as [Hk|Hk].
  - rewrite (filter_cons_True _ e es) by done. rewrite last_cons.
    destruct (last (filter _ es)); [done|].
    by rewrite <- Hk, lookup_insert_eq.
  - rewrite (filter_cons_False _ e es) by done.
    destruct (last (filter _ es)); [done|].
    by rewrite lookup_insert_ne.
Qed.

Lemma filter_key_unique {A K} `{EqDecision K} (key : A -> K)
    (l : list A) (a : A) :
  NoDup (key <$> l) -> a ∈ l -> filter (fun b => key b = key a) l = [a].
Proof.
  induction l as [|b l IH]; intros Hnd Ha; [by apply elem_of_nil in Ha|].
  rewrite fmap_cons in Hnd. apply NoDup_cons in Hnd as [Hb Hnd].
  apply elem_of_cons in Ha as [->|Ha].
  - rewrite filter_cons_True by done. f_equal.
    apply filter_none, Forall_forall. intros c Hc Heq.
    apply Hb. rewrite <- Heq. by apply list_elem_of_fmap_2.
  - rewrite filter_cons_False; [by apply IH|].
    intros Heq. apply Hb. rewrite Heq. by apply list_elem_of_fmap_2.
Qed.

Lemma filter_key_absent {A K} `{EqDecision K} (key : A -> K)
    (l : list A) (k : K) :
  k ∉ key <$> l -> filter (fun b => key b = k) l = [].
Proof.
  intros Hk. apply filter_none, Forall_forall. intros c Hc Heq.
  apply Hk. rewrite <- Heq. by apply list_elem_of_fmap_2.
Qed.

Section Assembled.
Variable s : TairaColoniusSolver.
Variables junk_d junk_o : nat -> Z.

(** The entries at a position are found among those of its row. *)
Lemma filter_position (row col : Z) (cs : list MatCall) :
  filter (fun e => (e.1.1, e.1.2) = (row, col)) (cs ≫= call_entries)
  = filter (fun e => e.1.2 = col) (row_entries row cs).
Proof.
  unfold row_entries. rewrite list_filter_filter.
  apply list_filter_iff. intros e. split.
  - intros [= <- <-]. done.
  - intros [<- <-]. done.
Qed.

Lemma assembled_lookup (row col : Z) :
  mat_val (assembled_operator s junk_d junk_o) !! (row, col)
  = (fun e => e.2)
      <$> last (filter (fun e => e.1.2 = col)
                 (row_entries row (calls_from s (qStart s) (local_faces s)))).
Proof.
  rewrite assembled_operator_val, insert_entries_lookup, filter_position.
  by destruct (last _).
Qed.

Lemma assembled_row_entries (k : nat) (f : face) :
  local_faces s !! k = Some f ->
  row_entries (qStart s + Z.of_nat k) (calls_from s (qStart s) (local_faces s))
  = face_calls s f (qStart s + Z.of_nat k) ≫= call_entries.
Proof.
  intros Hf. by rewrite row_entries_row_calls, (row_calls_calls_from _ _ _ k f).
Qed.

End Assembled.

(** X14. The operators entry by entry.  For the [k]-th local face, if the
    columns of the entries set in its row (the two cells and the columns
    of the body points in reach) are pairwise distinct, then after
    [generateBNQ] each such entry [(row, col, v)] is found as [v] at
    [(col, row)] of [QT] and as [BN[row] * v] at [(row, col)] of [BNQ],
    and both matrices are 0 at every other column of that row. *)
Theorem operators_entrywise (s : TairaColoniusSolver)
    (junk_d junk_o : nat -> Z) (k : nat) (f : face) :
  local_faces s !! k = Some f ->
  let row := (qStart s + Z.of_nat k)%Z in
  let entries :=
    zip_with (fun col v => (row, col, v)) (face_cells s f) [-1; 1]
    ++ ((fun pl => (row, body_col s f pl.1 pl.2, body_value s f pl.2))
          <$> near_points s f) in
  NoDup ((fun e => e.1.2) <$> entries) ->
  let s' := generateBNQ s junk_d junk_o in
  (forall e, e ∈ entries ->
     MatGetValue (QT s') e.1.2 row = e.2 /\
     MatGetValue (BNQ s') row e.1.2 = vec_get 0 (BN s) row * e.2) /\
  (forall col, col ∉ (fun e => e.1.2) <$> entries ->
     MatGetValue (QT s') col row = 0 /\ MatGetValue (BNQ s') row col = 0).
Proof.
  intros Hf row entries Hnd s'. subst s'.
  assert (row_entries row (calls_from s (qStart s) (local_faces s)) = entries)
    as Hrow.
  { subst row entries. rewrite (assembled_row_entries s k f Hf).
    rewrite face_calls_entries.
    assert (-1.0 = -1) as -> by lra. by assert (1.0 = 1) as -> by lra. }
  split.
  - intros e He.
    assert (MatGetValue (assembled_operator s junk_d junk_o) row e.1.2 = e.2)
      as HA.
    { unfold MatGetValue. rewrite assembled_lookup, Hrow.
      by rewrite (filter_key_unique (fun e => e.1.2) entries e Hnd He). }
    by rewrite generateBNQ_QT, generateBNQ_BNQ, MatGetValue_MatTranspose,
         MatGetValue_MatDiagonalScale, HA.
  - intros col Hcol.
    assert (MatGetValue (assembled_operator s junk_d junk_o) row col = 0)
      as HA.
    { unfold MatGetValue. rewrite assembled_lookup, Hrow.
      by rewrite (filter_key_absent (fun e => e.1.2) entries col Hcol). }
    rewrite generateBNQ_QT, generateBNQ_BNQ, MatGetValue_MatTranspose,
      MatGetValue_MatDiagonalScale, HA. split; [done|lra].
Qed.

Lemma two_cells_columns :
  (fun e : Z * Z * R => e.1.2)
    <$> (zip_with (fun col v => (0%Z, col, v))
           (face_cells two_cells (UFace 0 0)) [-1; 1]
         ++ ((fun pl => (0%Z, body_col two_cells (UFace 0 0) pl.1 pl.2,
                         body_value two_cells (UFace 0 0) pl.2))
               <$> near_points two_cells (UFace 0 0)))
  = [0%Z; 1%Z; 2%Z].
Proof. rewrite two_cells_cells, two_cells_near. reflexivity. Qed.

Lemma NoDup_012 : NoDup [0%Z; 1%Z; 2%Z].
Proof. apply (bool_decide_unpack _). by compute. Qed.

Lemma operators_entrywise_witness :
  local_faces two_cells !! 0%nat = Some (UFace 0 0) /\
  NoDup ((fun e : Z * Z * R => e.1.2)
           <$> (zip_with (fun col v => (0%Z, col, v))
                  (face_cells two_cells (UFace 0 0)) [-1; 1]
                ++ ((fun pl => (0%Z, body_col two_cells (UFace 0 0) pl.1 pl.2,
                                body_value two_cells (UFace 0 0) pl.2))
                      <$> near_points two_cells (UFace 0 0)))) /\
  (forall col,
     col ∉ (fun e : Z * Z * R => e.1.2)
           <$> (zip_with (fun col v => (0%Z, col, v))
                  (face_cells two_cells (UFace 0 0)) [-1; 1]
                ++ ((fun pl => (0%Z, body_col two_cells (UFace 0 0) pl.1 pl.2,
                                body_value two_cells (UFace 0 0) pl.2))
                      <$> near_points two_cells (UFace 0 0))) ->
     MatGetValue (QT (generateBNQ two_cells (fun _ => 0%Z) (fun _ => 0%Z)))
                 col 0 = 0 /\
     MatGetValue (BNQ (generateBNQ two_cells (fun _ => 0%Z) (fun _ => 0%Z)))
                 0 col = 0).
Proof.
  assert (NoDup ((fun e : Z * Z * R => e.1.2)
           <$> (zip_with (fun col v => (0%Z, col, v))
                  (face_cells two_cells (UFace 0 0)) [-1; 1]
                ++ ((fun pl => (0%Z, body_col two_cells (UFace 0 0) pl.1 pl.2,
                                body_value two_cells (UFace 0 0) pl.2))
                      <$> near_points two_cells (UFace 0 0))))) as Hnd.
  { rewrite two_cells_columns. apply NoDup_012. }
  split; [reflexivity|]. split; [exact Hnd|].
  apply (operators_entrywise two_cells (fun _ => 0%Z) (fun _ => 0%Z)
           0 (UFace 0 0) eq_refl Hnd).
Defined.

(** ** Cell indices kept as reals *)

(** X16. The pressure-cell indices reach the builder as reals
    ([PetscReal **pGlobalIdx]) and are converted on assignment to [cols].
    When the two cells next to a local face hold whole numbers [c0] and
    [c1] that fit a 32-bit [PetscInt] (from 0 to below 2^31, where the
    conversion is defined and a double holds the number exactly), nothing
    is lost on the way: the [MatSetValues] call that Pass 2 makes for the
    row of that face has exactly the columns [c0] and [c1]. *)
Theorem cell_indices_round_trip (s : TairaColoniusSolver)
    (d o : list Z) (k : nat) (f : face) (c0 c1 : Z) :
  local_faces s !! k = Some f ->
  match f with
  | UFace j i =>
      pGlobalIdx s j i = IZR c0 /\ pGlobalIdx s j (i + 1) = IZR c1
  | VFace j i =>
      pGlobalIdx s j i = IZR c0 /\ pGlobalIdx s (j + 1) i = IZR c1
  end ->
  (0 <= c0 < 2 ^ 31)%Z -> (0 <= c1 < 2 ^ 31)%Z ->
  let row := (qStart s + Z.of_nat k)%Z in
  G_calls (row_calls row (mat_stash (fill_values s (MatCreate_prealloc d o))))
  = [MatSetValues row [c0; c1] [-1.0; 1.0]].
Proof.
  intros Hf Hcells _ _ row. subst row.
  rewrite (fill_values_row s d o k f Hf), G_calls_face_calls.
  destruct f; destruct Hcells as [H0 H1]; cbn [face_cells];
    by rewrite H0, H1, !PetscInt_of_Real_IZR.
Qed.

Lemma cell_indices_round_trip_witness :
  local_faces two_cells !! 0%nat = Some (UFace 0 0) /\
  (pGlobalIdx two_cells 0 0 = IZR 0 /\ pGlobalIdx two_cells 0 (0 + 1) = IZR 1) /\
  (0 <= 0 < 2 ^ 31)%Z /\ (0 <= 1 < 2 ^ 31)%Z /\
  G_calls (row_calls (qStart two_cells + Z.of_nat 0)
             (mat_stash (fill_values two_cells (MatCreate_prealloc [] []))))
  = [MatSetValues (qStart two_cells + Z.of_nat 0) [0%Z; 1%Z] [-1.0; 1.0]].
Proof.
  split; [reflexivity|]. split; [split; reflexivity|].
  split; [lia|]. split; [lia|].
  apply (cell_indices_round_trip two_cells [] [] 0 (UFace 0 0) 0 1);
    [reflexivity | split; reflexivity | lia | lia].
Defined.

(** * Smoothness of the kernel *)

Lemma derivable_quadratic (a b c x : R) :
  derivable_pt_lim (fun z => a * z * z + b * z + c) x (2 * a * x + b).
Proof.
  intros eps Heps.
  assert (0 < Rabs a + 1) as Ha by (pose proof (Rabs_pos a); lra).
  assert (0 < eps / (Rabs a + 1)) as Hd by by apply Rdiv_lt_0_compat.
  exists (mkposreal _ Hd). intros k Hk Hlt. cbn in Hlt.
  replace ((a * (x + k) * (x + k) + b * (x + k) + c - (a * x * x + b * x + c))
           / k - (2 * a * x + b)) with (a * k) by (field; done).
  rewrite Rabs_mult.
  apply Rle_lt_trans with (Rabs a * (eps / (Rabs a + 1))).
  - apply Rmult_le_compat_l; [apply Rabs_pos|lra].
  - apply Rlt_le_trans with ((Rabs a + 1) * (eps / (Rabs a + 1))).
    + apply Rmult_lt_compat_r; lra.
    + right. field. lra.
Qed.

(** The derivative of a square root of a quadratic, where it is positive. *)
Lemma derivable_sqrt_quadratic (a b c x : R) :
  0 < a * x * x + b * x + c ->
  derivable_pt_lim (fun z => sqrt (a * z * z + b * z + c)) x
    (/ (2 * sqrt (a * x * x + b * x + c)) * (2 * a * x + b)).
Proof.
  intros Hpos.
  change (derivable_pt_lim
            (comp sqrt (fun z => a * z * z + b * z + c)) x
            (/ (2 * sqrt (a * x * x + b * x + c)) * (2 * a * x + b))).
  apply derivable_pt_lim_comp; [apply derivable_quadratic|].
  by apply derivable_pt_lim_sqrt.
Qed.

(** A function that, near [a], always takes the value of one of two
    functions with the same value and the same derivative at [a], has that
    derivative at [a]. *)
Lemma derivable_pt_lim_glue (f g phi : R -> R) (a l d : R) :
  0 < d ->
  derivable_pt_lim f a l -> derivable_pt_lim g a l ->
  phi a = f a -> phi a = g a ->
  (forall z, Rabs (z - a) < d -> phi z = f z \/ phi z = g z) ->
  derivable_pt_lim phi a l.
Proof.
  intros Hd Hf Hg Hfa Hga Hloc eps Heps.
  destruct (Hf eps Heps) as [d1 H1]. destruct (Hg eps Heps) as [d2 H2].
  assert (0 < Rmin d (Rmin d1 d2)) as Hmin.
  { repeat apply Rmin_glb_lt; [done|apply cond_pos..]. }
  exists (mkposreal _ Hmin). intros k Hk Hlt. cbn in Hlt.
  pose proof (Rmin_l d (Rmin d1 d2)). pose proof (Rmin_r d (Rmin d1 d2)).
  pose proof (Rmin_l d1 d2). pose proof (Rmin_r d1 d2).
  destruct (Hloc (a + k)) as [-> | ->].
  - replace (a + k - a) with k by ring. lra.
  - rewrite Hfa. apply H1; [done|lra].
  - rewrite Hga. apply H2; [done|lra].
Qed.

Section Smooth.
Variable h : R.
Hypothesis h_pos : 0 < h.

Lemma inner_derivable x0 :
  Rabs x0 / h <= 0.5 ->
  derivable_pt_lim (fun x => dhRoma_inner (Rabs x / h) h) x0
    (dhRoma_inner_slope x0 h).
Proof.
  intros Hr. pose proof (ratio_nonneg x0 h h_pos) as Hr0.
  set (a := -3 / (h * h)).
  assert (forall z, -3.0 * (Rabs z / h) * (Rabs z / h) + 1.0
                    = a * z * z + 0 * z + 1) as Hq.
  { intros z. subst a. unfold Rabs. destruct (Rcase_abs z);
      undecimal; field; lra. }
  assert (1 / 4 <= a * x0 * x0 + 0 * x0 + 1) as Hrad.
  { rewrite <- Hq. apply inner_radicand. lra. }
  assert (a * x0 * x0 + 0 * x0 + 1 = 1 - 3 * (x0 / h) ^ 2) as Hq0
    by (subst a; field; lra).
  apply (derivable_pt_lim_ext
           (mult_real_fct (1.0 / (3 * h))
              (plus_fct (fct_cte 1.0)
                 (fun z => sqrt (a * z * z + 0 * z + 1))))).
  { intros z. unfold dhRoma_inner, mult_real_fct, plus_fct, fct_cte.
    by rewrite Hq. }
  assert (0 < sqrt (a * x0 * x0 + 0 * x0 + 1)) as Hs
    by (apply sqrt_lt_R0; lra).
  replace (dhRoma_inner_slope x0 h)
    with (1.0 / (3 * h)
          * (0 + / (2 * sqrt (a * x0 * x0 + 0 * x0 + 1)) * (2 * a * x0 + 0))).
  - apply derivable_pt_lim_scal, derivable_pt_lim_plus;
      [apply derivable_pt_lim_const|].
    apply derivable_sqrt_quadratic. lra.
  - unfold dhRoma_inner_slope. rewrite <- Hq0. subst a.
    undecimal. field. split; lra.
Qed.

Lemma middle_derivable x0 :
  0.5 <= x0 / h <= 1.5 ->
  derivable_pt_lim (fun x => dhRoma_middle (x / h) h) x0
    (dhRoma_middle_slope x0 h).
Proof.
  intros Hr.
  set (a := -3 / (h * h)). set (b := 6 / h). set (c := -2).
  assert (forall z, -3.0 * (1 - z / h) * (1 - z / h) + 1.0
                    = a * z * z + b * z + c) as Hq.
  { intros z. subst a b c. undecimal. field. lra. }
  assert (1 / 4 <= a * x0 * x0 + b * x0 + c) as Hrad.
  { rewrite <- Hq.
    assert (0 <= (x0 / h - 0.5) * (1.5 - x0 / h))
      by (apply Rmult_le_pos; lra).
    undecimal. lra. }
  assert (a * x0 * x0 + b * x0 + c = 1 - 3 * (1 - x0 / h) ^ 2) as Hq0
    by (subst a b c; field; lra).
  apply (derivable_pt_lim_ext
           (mult_real_fct (1.0 / (6 * h))
              (minus_fct (fun z => 0 * z * z + (-3 / h) * z + 5)
                 (fun z => sqrt (a * z * z + b * z + c))))).
  { intros z. unfold dhRoma_middle, mult_real_fct, minus_fct.
    rewrite Hq. f_equal. f_equal. undecimal. field. lra. }
  assert (0 < sqrt (a * x0 * x0 + b * x0 + c)) as Hs
    by (apply sqrt_lt_R0; lra).
  replace (dhRoma_middle_slope x0 h)
    with (1.0 / (6 * h)
          * ((2 * 0 * x0 + -3 / h)
             - / (2 * sqrt (a * x0 * x0 + b * x0 + c)) * (2 * a * x0 + b))).
  - apply derivable_pt_lim_scal, derivable_pt_lim_minus;
      [apply derivable_quadratic|].
    apply derivable_sqrt_quadratic. lra.
  - unfold dhRoma_middle_slope. rewrite <- Hq0. subst a b.
    undecimal. field. split; lra.
Qed.

Lemma sqrt_radicand_half : sqrt (1 - 3 * (1 / 2) ^ 2) = 1 / 2.
Proof. apply sqrt_lem_1; lra. Qed.

Lemma inner_slope_half : dhRoma_inner_slope (h / 2) h = - 1 / h ^ 2.
Proof.
  unfold dhRoma_inner_slope.
  replace (h / 2 / h) with (1 / 2) by (field; lra).
  rewrite sqrt_radicand_half. field. lra.
Qed.

Lemma middle_slope_half : dhRoma_middle_slope (h / 2) h = - 1 / h ^ 2.
Proof.
  unfold dhRoma_middle_slope.
  replace (1 - h / 2 / h) with (1 / 2) by (field; lra).
  rewrite sqrt_radicand_half. field. lra.
Qed.

Lemma middle_slope_edge : dhRoma_middle_slope (1.5 * h) h = 0.
Proof.
  unfold dhRoma_middle_slope.
  replace (1 - 1.5 * h / h) with (- (1 / 2)) by (undecimal; field; lra).
  replace (1 - 3 * (- (1 / 2)) ^ 2) with (1 - 3 * (1 / 2) ^ 2) by field.
  rewrite sqrt_radicand_half. field. lra.
Qed.

Lemma dhRoma_derivable_inner x0 :
  Rabs x0 / h < 0.5 ->
  derivable_pt_lim (fun x => dhRoma x h) x0 (dhRoma_inner_slope x0 h).
Proof.
  intros Hr.
  apply (derivable_pt_lim_glue
           (fun x => dhRoma_inner (Rabs x / h) h)
           (fun x => dhRoma_inner (Rabs x / h) h) _ x0 _
           ((0.5 - Rabs x0 / h) * h)).
  - apply Rmult_lt_0_compat; lra.
  - apply inner_derivable. lra.
  - apply inner_derivable. lra.
  - apply dhRoma_inner_branch. lra.
  - apply dhRoma_inner_branch. lra.
  - intros z Hz. apply (ratio_close h h_pos) in Hz.
    left. apply dhRoma_inner_branch. lra.
Qed.

(** On the positive side, from the inner junction outwards. *)
Lemma dhRoma_derivable_pos x0 :
  0 < x0 -> 0.5 <= x0 / h ->
  exists l,
    derivable_pt_lim (fun x => dhRoma x h) x0 l /\
    (x0 = h / 2 -> l = - 1 / h ^ 2) /\
    (x0 = 1.5 * h -> l = 0).
Proof.
  intros Hx0 Hr.
  assert (Rabs x0 / h = x0 / h) as Habs by (rewrite Rabs_pos_eq; lra).
  assert (0 < / h) as Hi by by apply Rinv_0_lt_compat.
  assert (x0 = x0 / h * h) as Hx0h by (field; lra).
  set (r0 := x0 / h) in *.
  set (G := fun x => dhRoma_middle (x / h) h).
  set (F := fun x => dhRoma_inner (Rabs x / h) h).
  set (O := fct_cte 0).
  assert (forall d z, 0 < d -> d <= r0 -> Rabs (z - x0) < d * h ->
            0 < z /\ Rabs z / h = z / h /\ r0 - d < z / h < r0 + d) as Hnear.
  { intros d z Hd Hdr Hz. pose proof (ratio_close h h_pos z x0 d Hz) as Hc.
    assert (0 < z) as Hzpos.
    { apply Rabs_def2 in Hz as [Hz1 Hz2].
      assert (d * h <= r0 * h) by (apply Rmult_le_compat_r; lra). lra. }
    rewrite Habs in Hc. rewrite (Rabs_pos_eq z) in Hc by lra.
    rewrite (Rabs_pos_eq z) by lra. done. }
  destruct (Rtotal_order r0 0.5) as [Hlt | [Heq | Hgt]]; [lra| |].
  - (* the junction at 0.5 *)
    assert (x0 = h / 2) as Hx by (rewrite Hx0h, Heq; undecimal; field).
    exists (- 1 / h ^ 2). split; [|split; [done|]].
    + apply (derivable_pt_lim_glue F G _ x0 _ (0.5 * h)).
      * lra.
      * rewrite <- inner_slope_half, <- Hx. apply inner_derivable. lra.
      * rewrite <- middle_slope_half, <- Hx. apply middle_derivable.
        fold r0. lra.
      * apply dhRoma_inner_branch. lra.
      * rewrite dhRoma_middle_closed by (done || lra). subst G. cbn beta.
        by rewrite Habs.
      * intros z Hz. destruct (Hnear 0.5 z) as (Hz0 & Hza & Hzr);
          [lra | lra | done |].
        destruct (dhRoma_branches z h) as [[? _]|[[_ ->]|[_ ->]]].
        -- lra.
        -- right. subst G. cbn beta. by rewrite Hza.
        -- by left.
    + intros Hedge. rewrite Hedge in Hx.
      assert (1.5 * h = 0.5 * h + h) by (undecimal; field). lra.
  - destruct (Rtotal_order r0 1.5) as [Hlt | [Heq | Hgt']].
    + (* strictly inside the middle branch *)
      exists (dhRoma_middle_slope x0 h). split; [|split].
      * apply (derivable_pt_lim_glue G G _ x0 _
                 (Rmin (r0 - 0.5) (1.5 - r0) * h)).
        -- apply Rmult_lt_0_compat; [apply Rmin_glb_lt|]; lra.
        -- apply middle_derivable. fold r0. lra.
        -- apply middle_derivable. fold r0. lra.
        -- rewrite dhRoma_middle_branch by lra. subst G. cbn beta.
           by rewrite Habs.
        -- rewrite dhRoma_middle_branch by lra. subst G. cbn beta.
           by rewrite Habs.
        -- intros z Hz.
           pose proof (Rmin_l (r0 - 0.5) (1.5 - r0)).
           pose proof (Rmin_r (r0 - 0.5) (1.5 - r0)).
           destruct (Hnear (Rmin (r0 - 0.5) (1.5 - r0)) z)
             as (Hz0 & Hza & Hzr); [apply Rmin_glb_lt; lra | lra | done |].
           left. rewrite dhRoma_middle_branch by lra. subst G. cbn beta.
           by rewrite Hza.
      * intros Hx. assert (r0 = 0.5); [|lra].
        subst r0. rewrite Hx. undecimal. field. lra.
      * intros Hx. assert (r0 = 1.5); [|lra].
        subst r0. rewrite Hx. undecimal. field. lra.
    + (* the junction at 1.5 *)
      assert (x0 = 1.5 * h) as Hx by (rewrite Hx0h, Heq; done).
      exists 0. split; [|split; [intros Hx'; lra|done]].
      apply (derivable_pt_lim_glue G O _ x0 _ (1 * h)).
      * lra.
      * rewrite <- middle_slope_edge, <- Hx. apply middle_derivable.
        fold r0. lra.
      * apply derivable_pt_lim_const.
      * rewrite dhRoma_middle_branch by lra. subst G. cbn beta.
        by rewrite Habs.
      * rewrite dhRoma_middle_branch by lra. rewrite Habs, Heq.
        by rewrite dhRoma_middle_three_halves.
      * intros z Hz. destruct (Hnear 1 z) as (Hz0 & Hza & Hzr);
          [lra | lra | done |].
        destruct (dhRoma_branches z h) as [[_ ->]|[[_ ->]|[? _]]].
        -- by right.
        -- left. subst G. cbn beta. by rewrite Hza.
        -- lra.
    + (* outside the support *)
      exists 0. split; [|split].
      * apply (derivable_pt_lim_glue O O _ x0 _ ((r0 - 1.5) * h)).
        -- apply Rmult_lt_0_compat; lra.
        -- apply derivable_pt_lim_const.
        -- apply derivable_pt_lim_const.
        -- apply dhRoma_outer_branch. lra.
        -- apply dhRoma_outer_branch. lra.
        -- intros z Hz. pose proof (ratio_close h h_pos z x0 _ Hz) as Hc.
           left. apply dhRoma_outer_branch. lra.
      * intros Hx. assert (r0 = 0.5); [|lra].
        subst r0. rewrite Hx. undecimal. field. lra.
      * done.
Qed.

Lemma dhRoma_derivable_mirror x0 l :
  derivable_pt_lim (fun x => dhRoma x h) (- x0) l ->
  derivable_pt_lim (fun x => dhRoma x h) x0 (- l).
Proof.
  intros Hd.
  apply (derivable_pt_lim_ext (mirr_fct (fun x => dhRoma x h))).
  { intros z. unfold mirr_fct. apply dhRoma_opp. }
  apply derivable_pt_lim_mirr_fwd. by rewrite Ropp_involutive.
Qed.

Lemma dhRoma_derivable x0 :
  exists l, derivable_pt_lim (fun x => dhRoma x h) x0 l.
Proof.
  destruct (Rlt_dec (Rabs x0 / h) 0.5) as [Hin|Hout].
  { eexists. by apply dhRoma_derivable_inner. }
  assert (0.5 <= Rabs x0 / h) as Hr by lra.
  destruct (Rcase_abs x0) as [Hneg|Hpos].
  - rewrite Rabs_left in Hr by done.
    destruct (dhRoma_derivable_pos (- x0)) as (l & Hl & _); [lra|done|].
    exists (- l). by apply dhRoma_derivable_mirror.
  - assert (x0 <> 0).
    { intros ->. rewrite Rabs_R0 in Hr. unfold Rdiv in Hr.
      rewrite Rmult_0_l in Hr. lra. }
    rewrite Rabs_pos_eq in Hr by lra.
    destruct (dhRoma_derivable_pos x0) as (l & Hl & _); [lra|done|].
    by exists l.
Qed.

End Smooth.

(** X17. The kernel is differentiable.  For [h > 0], [dhRoma(., h)] has
    a derivative at every point; at the inner junction [x = h/2] the slopes
    of the inner and of the middle branch agree (both are [-1/h^2]) and at
    the edge of the support [x = 1.5 h] the slope of the middle branch is
    0, so the derivative has no jump at the junction radii. *)
Theorem kernel_differentiable (h : R) :
  0 < h ->
  (forall x0, exists l, derivable_pt_lim (fun x => dhRoma x h) x0 l) /\
  dhRoma_inner_slope (h / 2) h = - 1 / h ^ 2 /\
  dhRoma_middle_slope (h / 2) h = - 1 / h ^ 2 /\
  dhRoma_middle_slope (1.5 * h) h = 0 /\
  derivable_pt_lim (fun x => dhRoma x h) (h / 2) (- 1 / h ^ 2) /\
  derivable_pt_lim (fun x => dhRoma x h) (- (h / 2)) (1 / h ^ 2) /\
  derivable_pt_lim (fun x => dhRoma x h) (1.5 * h) 0 /\
  derivable_pt_lim (fun x => dhRoma x h) (- (1.5 * h)) 0.
Proof.
  intros Hh.
  assert (derivable_pt_lim (fun x => dhRoma x h) (h / 2) (- 1 / h ^ 2)) as H1.
  { destruct (dhRoma_derivable_pos h Hh (h / 2)) as (l & Hl & Hj & _).
    - lra.
    - replace (h / 2 / h) with 0.5 by (undecimal; field; lra). lra.
    - by rewrite <- Hj. }
  assert (derivable_pt_lim (fun x => dhRoma x h) (1.5 * h) 0) as H2.
  { destruct (dhRoma_derivable_pos h Hh (1.5 * h)) as (l & Hl & _ & Hj).
    - lra.
    - replace (1.5 * h / h) with 1.5 by (undecimal; field; lra). lra.
    - by rewrite <- Hj. }
  split; [intros x0; by apply dhRoma_derivable|].
  split; [by apply inner_slope_half|].
  split; [by apply middle_slope_half|].
  split; [by apply middle_slope_edge|].
  split; [done|]. split; [|split; [done|]].
  - replace (1 / h ^ 2) with (- (- 1 / h ^ 2)) by (field; lra).
    apply dhRoma_derivable_mirror. by rewrite Ropp_involutive.
  - pose proof (dhRoma_derivable_mirror h (- (1.5 * h)) 0) as Hm.
    rewrite Ropp_involutive, Ropp_0 in Hm. by apply Hm.
Qed.

Lemma kernel_differentiable_witness :
  0 < 2 /\ derivable_pt_lim (fun x => dhRoma x 2) (1.5 * 2) 0.
Proof.
  split; [lra|]. apply (kernel_differentiable 2). lra.
Defined.

(** * Building again *)

(** The values of the two operators, without the buffers of Pass 1. *)
Lemma generateBNQ_values s junk_d junk_o :
  let es := calls_from s (qStart s) (local_faces s) ≫= call_entries in
  mat_val (BNQ (generateBNQ s junk_d junk_o))
  = map_imap (fun k v => Some (vec_get 0 (BN s) k.1 * v))
      (insert_entries ∅ es) /\
  mat_val (QT (generateBNQ s junk_d junk_o))
  = kmap prod_swap (insert_entries ∅ es).
Proof.
  cbn zeta. rewrite generateBNQ_BNQ, generateBNQ_QT.
  unfold MatDiagonalScale, MatTranspose. cbn [mat_val].
  by rewrite assembled_operator_val.
Qed.

(** [generateBNQ] changes [BNQ] and [QT] and nothing else. *)
Lemma generateBNQ_shape s junk_d junk_o :
  exists B Q,
    generateBNQ s junk_d junk_o
    = {| numProcs := numProcs s;
         qStart := qStart s; qEnd := qEnd s;
         lambdaStart := lambdaStart s; lambdaEnd := lambdaEnd s;
         pGlobalIdx := pGlobalIdx s;
         uda := uda s; vda := vda s; mesh := mesh s; h := h s;
         x := x s; y := y s;
         boundaryPointIndices := boundaryPointIndices s;
         bodyGlobalIndices := bodyGlobalIndices s;
         numBoundaryPointsOnProcess := numBoundaryPointsOnProcess s;
         BN := BN s; BNQ := B; QT := Q |}.
Proof.
  unfold generateBNQ. destruct (count_nonzeros s _ _) as [d o]. eauto.
Qed.

(** X18. Building again gives the same operators.  [generateBNQ] reads
    neither the matrices it is about to replace nor, for the values it
    stores, the uninitialised buffers: run on its own result (with any
    buffer contents) it stores the same values in [BNQ] and in [QT]; in
    particular the scaling by [BN] is not applied a second time.  With the
    same buffer contents the whole result is the same. *)
Theorem generateBNQ_again (s : TairaColoniusSolver)
    (junk_d junk_o junk_d' junk_o' : nat -> Z) :
  let s1 := generateBNQ s junk_d junk_o in
  let s2 := generateBNQ s1 junk_d' junk_o' in
  mat_val (BNQ s2) = mat_val (BNQ s1) /\
  mat_val (QT s2) = mat_val (QT s1) /\
  generateBNQ s1 junk_d junk_o = s1.
Proof.
  intros s1 s2. subst s2.
  destruct (generateBNQ_values s junk_d junk_o) as [HB HQ].
  destruct (generateBNQ_values s1 junk_d' junk_o') as [HB' HQ'].
  fold s1 in HB, HQ. rewrite HB, HQ, HB', HQ'.
  destruct (generateBNQ_shape s junk_d junk_o) as (B & Q & Hs1).
  fold s1 in Hs1. rewrite Hs1. split; [done|]. split; [done|].
  rewrite <- Hs1 at 2. subst s1. reflexivity.
Qed.

(** * The kernel on doubles *)

Section Doubles.
Import PrimFloat.


(** Where rounding shows.  With [h = 1]: three roundings below the edge
    of the support the double result is negative, and [2^-29] below it is
    0, though both displacements are inside the support; and for a
    spacing [h] just above 4/9 the rounded product [h * delta(0, 0, h)] is
    exactly 1. *)
Lemma dhRoma_binary64_rounding :
  (Binary64.dhRoma (1.5 - 0x1.8p-51) 1 <? 0)%float = true /\
  Binary64.dhRoma (1.5 - 0x1p-29) 1 = 0%float /\
  (4 / 9 <? 0x1.c71c71c71c71ep-2)%float = true /\
  (0x1.c71c71c71c71ep-2 * Binary64.delta 0 0 0x1.c71c71c71c71ep-2)%float
  = 1%float.
Proof. repeat split; vm_compute; reflexivity. Qed.

End Doubles.
